(** * Node editing of the JSON editor: the Save handler and the editor listener

    A shallow embedding of
      - [src/features/modals/NodeModal/index.tsx]: the [onClick] handler of the
        Save button, with [traverseToParent], [emitJsonUpdate] and the three
        write strategies (merge, rename, replace);
      - [src/pages/editor.tsx]: the listener of the [json:update] event.

    JavaScript values that the handler manipulates come from [JSON.parse], so
    they are the JSON values; [undefined] is the [None] of [option jsval].
    Objects are association lists in property order.  Exceptions are values of
    [exn] in a result type; the component state and the calls to the store, to
    [window.dispatchEvent] and to [onClose] are threaded through a small
    state-and-exception monad in which a state change made before a [throw]
    is kept, as in JavaScript.

    Limits of the model, all on the side of the JavaScript built-ins:
      - a number is the exact decimal value of its literal, printed as
        [Number::toString] prints a value with these digits: the rounding of
        IEEE doubles (more than 17 significant digits, exponents beyond
        the range of a double) is not modelled, and [-0] is [0];
      - characters are the 8-bit characters of [string]: a [\uXXXX] escape
        above [00ff] is rejected by [JSON_parse];
      - a property name is looked up among own data properties only (keys of
        objects, indices of arrays and of strings): members inherited from a
        prototype and the [length] of arrays and strings are not modelled;
      - an array slot left empty by a write past the end is filled with
        [null], which is what [JSON.stringify], the only reader of the
        mutated root, prints for it; a non-index property stored on an array
        is dropped, as [JSON.stringify] does not print it;
      - the module is an ES module, hence strict code: a write to a property
        of a primitive throws a [TypeError];
      - [setJson], [onClose] and [window.dispatchEvent] return normally
        ([emitJsonUpdate] would swallow an exception of the last one). *)

From Stdlib Require Import List String Ascii ZArith NArith Bool Lia.
From Stdlib Require Import DecimalString DecimalN.
Import ListNotations.
Open Scope string_scope.
Open Scope list_scope.

(** ** Characters and numbers *)

Definition chars := list ascii.

Definition lit (s : string) : chars := list_ascii_of_string s.

Definition digits_of_N (n : N) : string :=
  NilEmpty.string_of_uint (N.to_uint n).

Definition is_digit (c : ascii) : bool :=
  let n := N_of_ascii c in ((48 <=? n) && (n <=? 57))%N.

Definition is_zero_digit (c : ascii) : bool := (N_of_ascii c =? 48)%N.

(** A number: its sign, its significant digits [d1 ... dk] and the place
    [point] of the decimal point, for the value [0.d1...dk * 10^point].
    Zero has no digit. *)
Record number : Type := {
  negative : bool;
  digits : chars;
  point : Z
}.

Definition zero_number : number :=
  {| negative := false; digits := []; point := 0 |}.

Fixpoint strip_leading_zeros (ds : chars) : chars :=
  match ds with
  | c :: t => if is_zero_digit c then strip_leading_zeros t else ds
  | [] => []
  end.

Definition strip_trailing_zeros (ds : chars) : chars :=
  List.rev (strip_leading_zeros (List.rev ds)).

(** The number of an integer part [ip], a fraction [fp] and an exponent
    [x]: the digits of [ip.fp] between its first and its last non-zero
    one. *)
Definition make_number (neg : bool) (ip fp : chars) (x : Z) : number :=
  let all := ip ++ fp in
  let sig := strip_leading_zeros all in
  match strip_trailing_zeros sig with
  | [] => zero_number
  | ds =>
      {| negative := neg; digits := ds;
         point := Z.of_nat (List.length ip) + x
                  - Z.of_nat (List.length all - List.length sig) |}
  end.

Definition number_of_Z (z : Z) : number :=
  make_number (z <? 0)%Z (lit (digits_of_N (Z.abs_N z))) [] 0.

Coercion number_of_Z : Z >-> number.

Definition is_zero (x : number) : bool :=
  match digits x with
  | [] => true
  | _ :: _ => false
  end.

(** The numbers that [JSON_parse] builds: digits only, no zero at either
    end, and one zero. *)
Definition number_ok (x : number) : Prop :=
  Forall (fun c => is_digit c = true) (digits x) /\
  strip_leading_zeros (digits x) = digits x /\
  strip_trailing_zeros (digits x) = digits x /\
  (digits x = [] -> x = zero_number).

(** ** JavaScript values *)

Unset Elimination Schemes.
Inductive jsval : Type :=
| VNull
| VBool (b : bool)
| VNum (n : number)
| VStr (s : string)
| VArr (l : list jsval)
| VObj (l : list (string * jsval)).
Set Elimination Schemes.
Arguments VNum n%_Z.

(** Induction on values, with the elements of arrays and objects. *)

Section JsvalInd.
Variable P : jsval -> Prop.
Hypothesis Hnull : P VNull.
Hypothesis Hbool : forall b, P (VBool b).
Hypothesis Hnum : forall n, P (VNum n).
Hypothesis Hstr : forall s, P (VStr s).
Hypothesis Harr : forall l, Forall P l -> P (VArr l).
Hypothesis Hobj : forall o, Forall (fun kv => P (snd kv)) o -> P (VObj o).

Fixpoint jsval_ind (v : jsval) : P v :=
  match v with
  | VNull => Hnull
  | VBool b => Hbool b
  | VNum n => Hnum n
  | VStr s => Hstr s
  | VArr l =>
      Harr l ((fix go (l : list jsval) : Forall P l :=
                 match l with
                 | [] => Forall_nil _
                 | x :: t => Forall_cons x (jsval_ind x) (go t)
                 end) l)
  | VObj o =>
      Hobj o ((fix go (l : list (string * jsval))
                 : Forall (fun kv => P (snd kv)) l :=
                 match l with
                 | [] => Forall_nil _
                 | kv :: t =>
                     Forall_cons (P := fun kv => P (snd kv)) kv
                       (jsval_ind (snd kv)) (go t)
                 end) o)
  end.
End JsvalInd.

(** Exceptions: the built-in ones and [new Error(message)]. *)
Inductive exn : Type :=
| SyntaxError
| TypeError
| Error (message : string).

Inductive result (A : Type) : Type :=
| Ok (a : A)
| Throw (e : exn).
Arguments Ok {A} a.
Arguments Throw {A} e.

Definition rbind {A B} (r : result A) (k : A -> result B) : result B :=
  match r with
  | Ok a => k a
  | Throw e => Throw e
  end.

Declare Scope result_scope.
Delimit Scope result_scope with result.
Notation "x <- r ;; k" := (rbind r (fun x => k))
  (at level 61, r at next level, right associativity) : result_scope.

(** A path segment: an object key or an array index. *)
Inductive seg : Type :=
| SKey (s : string)
| SIdx (n : N).

(** ** Property keys *)

(** [ToPropertyKey]: a number is used under its decimal name. *)
Definition ToPropertyKey (s : seg) : string :=
  match s with
  | SKey k => k
  | SIdx n => digits_of_N n
  end.

(** An array index is a canonical decimal name below [2^32 - 1]. *)
Definition array_index (k : string) : option N :=
  match NilEmpty.uint_of_string k with
  | Some d =>
      let n := N.of_uint d in
      if (String.eqb (digits_of_N n) k && (n <? 4294967295)%N)%bool
      then Some n else None
  | None => None
  end.

(** ** Ordinary objects, in property order

    Integer-like keys come first, in ascending order, then the other keys in
    the order of their creation. *)

Definition obj := list (string * jsval).

Fixpoint obj_lookup (k : string) (o : obj) : option jsval :=
  match o with
  | [] => None
  | (k', v) :: t => if String.eqb k k' then Some v else obj_lookup k t
  end.

Definition has_key (k : string) (o : obj) : bool :=
  match obj_lookup k o with Some _ => true | None => false end.

Fixpoint obj_replace (k : string) (v : jsval) (o : obj) : obj :=
  match o with
  | [] => []
  | (k', v') :: t =>
      if String.eqb k k' then (k', v) :: t else (k', v') :: obj_replace k v t
  end.

Fixpoint obj_insert_index (i : N) (k : string) (v : jsval) (o : obj) : obj :=
  match o with
  | [] => [(k, v)]
  | (k', v') :: t =>
      match array_index k' with
      | Some j =>
          if (j <? i)%N then (k', v') :: obj_insert_index i k v t
          else (k, v) :: o
      | None => (k, v) :: o
      end
  end.

(** [o[k] = v] on an ordinary object. *)
Definition obj_set (k : string) (v : jsval) (o : obj) : obj :=
  if has_key k o then obj_replace k v o
  else match array_index k with
       | Some i => obj_insert_index i k v o
       | None => o ++ [(k, v)]
       end.

(** [delete o[k]]. *)
Fixpoint obj_delete (k : string) (o : obj) : obj :=
  match o with
  | [] => []
  | (k', v) :: t => if String.eqb k k' then t else (k', v) :: obj_delete k t
  end.

(** [{ ...a, ...b }]: the properties of [a], then those of [b], copied in
    order into a fresh object. *)
Definition obj_assign (target source : obj) : obj :=
  fold_left (fun acc kv => obj_set (fst kv) (snd kv) acc) source target.

Definition spread2 (a b : obj) : obj :=
  obj_assign (obj_assign [] a) b.

(** ** Operators *)

(** Truthiness of a value that may be [undefined]. *)
Definition truthy (v : option jsval) : bool :=
  match v with
  | None => false
  | Some VNull => false
  | Some (VBool b) => b
  | Some (VNum n) => negb (is_zero n)
  | Some (VStr s) => negb (String.eqb s EmptyString)
  | Some (VArr _) => true
  | Some (VObj _) => true
  end.

Definition typeof (v : option jsval) : string :=
  match v with
  | None => "undefined"
  | Some VNull => "object"
  | Some (VBool _) => "boolean"
  | Some (VNum _) => "number"
  | Some (VStr _) => "string"
  | Some (VArr _) => "object"
  | Some (VObj _) => "object"
  end.

Definition isArray (v : option jsval) : bool :=
  match v with
  | Some (VArr _) => true
  | _ => false
  end.

(** [v[k]]: reading a property. *)
Definition js_get (v : option jsval) (k : string) : result (option jsval) :=
  match v with
  | None => Throw TypeError
  | Some VNull => Throw TypeError
  | Some (VObj o) => Ok (obj_lookup k o)
  | Some (VArr l) =>
      match array_index k with
      | Some i => Ok (nth_error l (N.to_nat i))
      | None => Ok None
      end
  | Some (VStr s) =>
      match array_index k with
      | Some i =>
          match String.get (N.to_nat i) s with
          | Some c => Ok (Some (VStr (String c EmptyString)))
          | None => Ok None
          end
      | None => Ok None
      end
  | Some (VBool _) => Ok None
  | Some (VNum _) => Ok None
  end.

(** Writing slot [i] of an array, the array growing when [i] is past its
    end. *)
Fixpoint arr_set (i : nat) (v : jsval) (l : list jsval) : list jsval :=
  match i, l with
  | O, [] => [v]
  | O, _ :: t => v :: t
  | S i', [] => VNull :: arr_set i' v []
  | S i', x :: t => x :: arr_set i' v t
  end.

(** [c[k] = v] in strict code; the result is the object after the write. *)
Definition js_set (c : option jsval) (k : string) (v : jsval) : result jsval :=
  match c with
  | None => Throw TypeError
  | Some VNull => Throw TypeError
  | Some (VBool _) => Throw TypeError
  | Some (VNum _) => Throw TypeError
  | Some (VStr _) => Throw TypeError
  | Some (VObj o) => Ok (VObj (obj_set k v o))
  | Some (VArr l) =>
      match array_index k with
      | Some i => Ok (VArr (arr_set (N.to_nat i) v l))
      | None => Ok (VArr l)
      end
  end.

(** [delete c[k]] on the result of a write, an object or an array: the
    slot of an array is left empty. *)
Definition js_delete (c : option jsval) (k : string) : result jsval :=
  match c with
  | None => Throw TypeError
  | Some VNull => Throw TypeError
  | Some (VObj o) => Ok (VObj (obj_delete k o))
  | Some (VArr l) =>
      match array_index k with
      | Some i =>
          if (N.to_nat i <? List.length l)%nat
          then Ok (VArr (arr_set (N.to_nat i) VNull l)) else Ok (VArr l)
      | None => Ok (VArr l)
      end
  | Some v => Ok v
  end.

(** ** [JSON.stringify(v, null, 2)] *)

Definition nl : ascii := ascii_of_N 10.
Definition dquote : ascii := ascii_of_N 34.
Definition bslash : ascii := ascii_of_N 92.

Definition hex_digit (n : N) : ascii :=
  if (n <? 10)%N then ascii_of_N (48 + n) else ascii_of_N (87 + n).

(** One character of a string between quotes. *)
Definition escape_char (c : ascii) : chars :=
  let n := N_of_ascii c in
  if (n =? 34)%N then [bslash; dquote] else
  if (n =? 92)%N then [bslash; bslash] else
  if (n =? 8)%N then bslash :: lit "b" else
  if (n =? 9)%N then bslash :: lit "t" else
  if (n =? 10)%N then bslash :: lit "n" else
  if (n =? 12)%N then bslash :: lit "f" else
  if (n =? 13)%N then bslash :: lit "r" else
  if (n <? 32)%N then
    bslash :: lit "u00" ++ [hex_digit (n / 16); hex_digit (n mod 16)]
  else [c].

Fixpoint escape (s : string) : chars :=
  match s with
  | EmptyString => []
  | String c s' => escape_char c ++ escape s'
  end.

Definition QuoteJSONString (s : string) : chars :=
  dquote :: escape s ++ [dquote].

Definition zeros (n : nat) : chars := repeat "0"%char n.

(** [Number::toString] of the value with digits [d1 ... dk] and decimal
    point at [n]: plain digits up to 21 places, a fraction down to six
    zeros after the point, the exponent form otherwise. *)
Definition NumberToString (x : number) : chars :=
  match digits x with
  | [] => lit "0"
  | d1 :: rest =>
      let k := Z.of_nat (List.length (digits x)) in
      let n := point x in
      (if negative x then ["-"%char] else []) ++
      (if ((k <=? n) && (n <=? 21))%Z then
         digits x ++ zeros (Z.to_nat (n - k))
       else if ((0 <? n) && (n <=? 21))%Z then
         firstn (Z.to_nat n) (digits x) ++ "."%char :: skipn (Z.to_nat n) (digits x)
       else if ((-6 <? n) && (n <=? 0))%Z then
         "0"%char :: "."%char :: zeros (Z.to_nat (- n)) ++ digits x
       else
         d1 :: match rest with [] => [] | _ :: _ => "."%char :: rest end ++
         "e"%char :: (if (0 <=? n - 1)%Z then "+"%char else "-"%char) ::
         lit (digits_of_N (Z.abs_N (n - 1))))
  end.

Definition indent (n : nat) : chars := repeat " "%char n.

(** [SerializeJSONProperty], with [ind] the current indentation and a gap of
    two spaces. *)
Fixpoint serialize (ind : nat) (v : jsval) : chars :=
  match v with
  | VNull => lit "null"
  | VBool true => lit "true"
  | VBool false => lit "false"
  | VNum n => NumberToString n
  | VStr s => QuoteJSONString s
  | VArr [] => lit "[]"
  | VArr (x :: xs) =>
      "["%char :: nl :: indent (2 + ind) ++ serialize (2 + ind) x ++
      (fix more (l : list jsval) : chars :=
         match l with
         | [] => []
         | y :: ys =>
             ","%char :: nl :: indent (2 + ind) ++ serialize (2 + ind) y ++ more ys
         end) xs ++
      nl :: indent ind ++ lit "]"
  | VObj [] => lit "{}"
  | VObj ((k, x) :: xs) =>
      "{"%char :: nl :: indent (2 + ind) ++
      QuoteJSONString k ++ lit ": " ++ serialize (2 + ind) x ++
      (fix more (l : list (string * jsval)) : chars :=
         match l with
         | [] => []
         | (k', y) :: ys =>
             ","%char :: nl :: indent (2 + ind) ++
             QuoteJSONString k' ++ lit ": " ++ serialize (2 + ind) y ++ more ys
         end) xs ++
      nl :: indent ind ++ lit "}"
  end.

Definition JSON_stringify (v : jsval) : string :=
  string_of_list_ascii (serialize 0 v).

(** ** [JSON.parse] *)

Definition is_ws (c : ascii) : bool :=
  let n := N_of_ascii c in
  ((n =? 32) || (n =? 9) || (n =? 10) || (n =? 13))%N.

Fixpoint skip_ws (cs : chars) : chars :=
  match cs with
  | c :: t => if is_ws c then skip_ws t else cs
  | [] => []
  end.

Fixpoint take_digits (cs : chars) : chars * chars :=
  match cs with
  | c :: t =>
      if is_digit c then let (d, r) := take_digits t in (c :: d, r)
      else ([], cs)
  | [] => ([], [])
  end.

(** One digit at least. *)
Definition parse_digits (cs : chars) : option (chars * chars) :=
  match take_digits cs with
  | ([], _) => None
  | (d, r) => Some (d, r)
  end.

Definition N_of_digits (d : chars) : N :=
  match NilEmpty.uint_of_string (string_of_list_ascii d) with
  | Some u => N.of_uint u
  | None => 0
  end.

(** The integer part: [0], or digits without a leading zero. *)
Definition parse_int (cs : chars) : option (chars * chars) :=
  match parse_digits cs with
  | Some (d, r) =>
      match d with
      | z :: _ :: _ => if is_zero_digit z then None else Some (d, r)
      | _ => Some (d, r)
      end
  | None => None
  end.

(** The fraction, if the text goes on with a point. *)
Definition parse_frac (cs : chars) : option (chars * chars) :=
  match cs with
  | c :: t =>
      if (N_of_ascii c =? 46)%N then parse_digits t else Some ([], cs)
  | [] => Some ([], [])
  end.

(** The exponent, if the text goes on with [e] or [E]. *)
Definition parse_exp (cs : chars) : option (Z * chars) :=
  match cs with
  | c :: t =>
      if ((N_of_ascii c =? 101) || (N_of_ascii c =? 69))%N%bool then
        match t with
        | s :: t' =>
            if (N_of_ascii s =? 43)%N then
              match parse_digits t' with
              | Some (d, r) => Some (Z.of_N (N_of_digits d), r)
              | None => None
              end
            else if (N_of_ascii s =? 45)%N then
              match parse_digits t' with
              | Some (d, r) => Some ((- Z.of_N (N_of_digits d))%Z, r)
              | None => None
              end
            else
              match parse_digits t with
              | Some (d, r) => Some (Z.of_N (N_of_digits d), r)
              | None => None
              end
        | [] => None
        end
      else Some (0%Z, cs)
  | [] => Some (0%Z, [])
  end.

Definition parse_unsigned (neg : bool) (cs : chars) : option (number * chars) :=
  match parse_int cs with
  | Some (ip, r1) =>
      match parse_frac r1 with
      | Some (fp, r2) =>
          match parse_exp r2 with
          | Some (x, r3) => Some (make_number neg ip fp x, r3)
          | None => None
          end
      | None => None
      end
  | None => None
  end.

Definition parse_number (cs : chars) : option (number * chars) :=
  match cs with
  | c :: t =>
      if (N_of_ascii c =? 45)%N then parse_unsigned true t
      else parse_unsigned false cs
  | [] => None
  end.

Definition hex_value (c : ascii) : option N :=
  let n := N_of_ascii c in
  if ((48 <=? n) && (n <=? 57))%N%bool then Some (n - 48)%N
  else if ((97 <=? n) && (n <=? 102))%N%bool then Some (n - 87)%N
  else if ((65 <=? n) && (n <=? 70))%N%bool then Some (n - 55)%N
  else None.

(** The characters of a string after its opening quote, up to and
    including the closing quote. *)
Fixpoint parse_string (cs : chars) : option (string * chars) :=
  match cs with
  | [] => None
  | c :: t =>
      let n := N_of_ascii c in
      if (n =? 34)%N then Some (EmptyString, t)
      else if (n =? 92)%N then
        match t with
        | e :: t' =>
            let m := N_of_ascii e in
            let simple (d : N) :=
              match parse_string t' with
              | Some (s, r) => Some (String (ascii_of_N d) s, r)
              | None => None
              end in
            if (m =? 34)%N then simple 34%N
            else if (m =? 92)%N then simple 92%N
            else if (m =? 47)%N then simple 47%N
            else if (m =? 98)%N then simple 8%N
            else if (m =? 102)%N then simple 12%N
            else if (m =? 110)%N then simple 10%N
            else if (m =? 114)%N then simple 13%N
            else if (m =? 116)%N then simple 9%N
            else if (m =? 117)%N then
              match t' with
              | h1 :: h2 :: h3 :: h4 :: t'' =>
                  match hex_value h1, hex_value h2, hex_value h3, hex_value h4 with
                  | Some a, Some b, Some c', Some d =>
                      let code := (((a * 16 + b) * 16 + c') * 16 + d)%N in
                      if (code <? 256)%N then
                        match parse_string t'' with
                        | Some (s, r) => Some (String (ascii_of_N code) s, r)
                        | None => None
                        end
                      else None
                  | _, _, _, _ => None
                  end
              | _ => None
              end
            else None
        | [] => None
        end
      else if (n <? 32)%N then None
      else
        match parse_string t with
        | Some (s, r) => Some (String c s, r)
        | None => None
        end
  end.

(** The recursive descent over values.  Every call consumes a character
    before it recurses, so a fuel above the length of the text is never
    exhausted ([JSON_parse] below supplies it). *)
Fixpoint parse_value (fuel : nat) (cs : chars) {struct fuel}
  : option (jsval * chars) :=
  match fuel with
  | O => None
  | S f =>
      match skip_ws cs with
      | [] => None
      | c :: t =>
          let n := N_of_ascii c in
          if (n =? 34)%N then
            match parse_string t with
            | Some (s, r) => Some (VStr s, r)
            | None => None
            end
          else if (n =? 91)%N then
            match skip_ws t with
            | c' :: r =>
                if (N_of_ascii c' =? 93)%N then Some (VArr [], r)
                else parse_elements f t []
            | [] => None
            end
          else if (n =? 123)%N then
            match skip_ws t with
            | c' :: r =>
                if (N_of_ascii c' =? 125)%N then Some (VObj [], r)
                else parse_members f t []
            | [] => None
            end
          else if (n =? 110)%N then
            match t with
            | c1 :: c2 :: c3 :: r =>
                if ((N_of_ascii c1 =? 117) && (N_of_ascii c2 =? 108)
                    && (N_of_ascii c3 =? 108))%N%bool
                then Some (VNull, r) else None
            | _ => None
            end
          else if (n =? 116)%N then
            match t with
            | c1 :: c2 :: c3 :: r =>
                if ((N_of_ascii c1 =? 114) && (N_of_ascii c2 =? 117)
                    && (N_of_ascii c3 =? 101))%N%bool
                then Some (VBool true, r) else None
            | _ => None
            end
          else if (n =? 102)%N then
            match t with
            | c1 :: c2 :: c3 :: c4 :: r =>
                if ((N_of_ascii c1 =? 97) && (N_of_ascii c2 =? 108)
                    && (N_of_ascii c3 =? 115) && (N_of_ascii c4 =? 101))%N%bool
                then Some (VBool false, r) else None
            | _ => None
            end
          else
            match parse_number (c :: t) with
            | Some (z, r) => Some (VNum z, r)
            | None => None
            end
      end
  end

(** The elements of an array after [[] or [,], in reverse in [acc]. *)
with parse_elements (fuel : nat) (cs : chars) (acc : list jsval) {struct fuel}
  : option (jsval * chars) :=
  match fuel with
  | O => None
  | S f =>
      match parse_value f cs with
      | Some (v, r) =>
          match skip_ws r with
          | c :: r' =>
              if (N_of_ascii c =? 44)%N then parse_elements f r' (v :: acc)
              else if (N_of_ascii c =? 93)%N then Some (VArr (rev (v :: acc)), r')
              else None
          | [] => None
          end
      | None => None
      end
  end

(** The members of an object after [{] or [,]: each one is defined on the
    object built so far, so that a repeated key keeps its first place and
    its last value. *)
with parse_members (fuel : nat) (cs : chars) (acc : obj) {struct fuel}
  : option (jsval * chars) :=
  match fuel with
  | O => None
  | S f =>
      match skip_ws cs with
      | q :: t =>
          if (N_of_ascii q =? 34)%N then
            match parse_string t with
            | Some (k, r) =>
                match skip_ws r with
                | c :: r' =>
                    if (N_of_ascii c =? 58)%N then
                      match parse_value f r' with
                      | Some (v, r'') =>
                          match skip_ws r'' with
                          | c' :: r3 =>
                              if (N_of_ascii c' =? 44)%N
                              then parse_members f r3 (obj_set k v acc)
                              else if (N_of_ascii c' =? 125)%N
                              then Some (VObj (obj_set k v acc), r3)
                              else None
                          | [] => None
                          end
                      | None => None
                      end
                    else None
                | [] => None
                end
            | None => None
            end
          else None
      | [] => None
      end
  end.

(** [JSON.parse(text)]: a value, or a [SyntaxError]. *)
Definition JSON_parse (text : string) : result jsval :=
  let cs := list_ascii_of_string text in
  match parse_value (S (List.length cs)) cs with
  | Some (v, r) =>
      match skip_ws r with
      | [] => Ok v
      | _ :: _ => Throw SyntaxError
      end
  | None => Throw SyntaxError
  end.

(** Documents are written below with an apostrophe for each double quote. *)
Fixpoint dq (s : string) : string :=
  match s with
  | EmptyString => EmptyString
  | String c s' =>
      String (if (N_of_ascii c =? 39)%N then dquote else c) (dq s')
  end.

(** ** The selected node *)

(** Modelled from the spec: the row type of [NodeData["text"]] and the
    [NodeData] record of [types/graph], which is not among the sources: a
    row has an optional key, a value and a type; a node has its rows and
    its path. *)
Record row : Type := {
  key : option string;
  value : jsval;
  type : string
}.

Record NodeData : Type := {
  text : list row;
  path : list seg
}.

(** Truthiness of [row.key]: a key that is neither [null] nor empty. *)
Definition key_truthy (r : row) : bool :=
  match key r with
  | Some k => negb (String.eqb k EmptyString)
  | None => false
  end.

(** [nodeData?.text ?? []] and [nodeData?.path ?? []]. *)
Definition rows_of (nodeData : option NodeData) : list row :=
  match nodeData with Some n => text n | None => [] end.

Definition path_of (nodeData : option NodeData) : list seg :=
  match nodeData with Some n => path n | None => [] end.

(** ** The component, the store and the window *)

Inductive call : Type :=
| SetJson (json : string)
| DispatchEvent (name : string) (detail : string)
| OnClose.

Record world : Type := {
  json : string;            (* the document held by the useJson store *)
  calls : list call;        (* calls made to the collaborators, in order *)
  isEditing : bool;
  editedText : string;
  error : option exn        (* the exception whose message is displayed *)
}.

(** Computations that read and write the [world] and may throw. *)
Definition M (A : Type) : Type := world -> result A * world.

Definition ret {A} (a : A) : M A := fun w => (Ok a, w).

Definition throw {A} (e : exn) : M A := fun w => (Throw e, w).

Definition bind {A B} (m : M A) (k : A -> M B) : M B :=
  fun w =>
    match m w with
    | (Ok a, w') => k a w'
    | (Throw e, w') => (Throw e, w')
    end.

Definition try_catch {A} (m : M A) (handler : exn -> M A) : M A :=
  fun w =>
    match m w with
    | (Ok a, w') => (Ok a, w')
    | (Throw e, w') => handler e w'
    end.

Definition lift {A} (r : result A) : M A := fun w => (r, w).

Declare Scope M_scope.
Delimit Scope M_scope with M.
Notation "x <- m ;; k" := (bind m (fun x => k))
  (at level 61, m at next level, right associativity) : M_scope.
Notation "m ;; k" := (bind m (fun _ => k))
  (at level 61, right associativity) : M_scope.

Definition getJson : M string := fun w => (Ok (json w), w).

Definition setJson (s : string) : M unit :=
  fun w => (Ok tt, {| json := s; calls := calls w ++ [SetJson s];
                      isEditing := isEditing w; editedText := editedText w;
                      error := error w |}).

Definition dispatchEvent (name detail : string) : M unit :=
  fun w => (Ok tt, {| json := json w;
                      calls := calls w ++ [DispatchEvent name detail];
                      isEditing := isEditing w; editedText := editedText w;
                      error := error w |}).

Definition onClose : M unit :=
  fun w => (Ok tt, {| json := json w; calls := calls w ++ [OnClose];
                      isEditing := isEditing w; editedText := editedText w;
                      error := error w |}).

Definition getEditedText : M string := fun w => (Ok (editedText w), w).

Definition setIsEditing (b : bool) : M unit :=
  fun w => (Ok tt, {| json := json w; calls := calls w; isEditing := b;
                      editedText := editedText w; error := error w |}).

Definition setEditedText (s : string) : M unit :=
  fun w => (Ok tt, {| json := json w; calls := calls w;
                      isEditing := isEditing w; editedText := s;
                      error := error w |}).

Definition setError (e : option exn) : M unit :=
  fun w => (Ok tt, {| json := json w; calls := calls w;
                      isEditing := isEditing w; editedText := editedText w;
                      error := e |}).

(** ** NodeModal *)

(** [emitJsonUpdate]: the dispatch, any exception of which is swallowed. *)
Definition emitJsonUpdate (jsonString : string) : M unit :=
  try_catch (dispatchEvent "json:update" jsonString) (fun _ => ret tt).

Record traversal : Type := {
  parentPath : list seg;
  lastKey : option seg;
  cursor : option jsval
}.

(** The loop [for (const seg of parentPath) cursor = cursor[seg]]. *)
Fixpoint walk (cursor : option jsval) (p : list seg) : result (option jsval) :=
  match p with
  | [] => Ok cursor
  | s :: p' =>
      (c <- js_get cursor (ToPropertyKey s) ;; walk c p')%result
  end.

Definition traverseToParent (root : jsval) (fullPath : list seg)
  : result traversal :=
  if (List.length fullPath =? 0)%nat
  then Ok {| parentPath := []; lastKey := None; cursor := Some root |}
  else
    let parentPath := firstn (List.length fullPath - 1) fullPath in
    let lastKey := nth_error fullPath (List.length fullPath - 1) in
    (c <- walk (Some root) parentPath ;;
     Ok {| parentPath := parentPath; lastKey := lastKey; cursor := c |})%result.

(** The own enumerable properties that a spread copies. *)
Definition own_entries (v : option jsval) : obj :=
  match v with
  | Some (VObj o) => o
  | Some (VArr l) =>
      combine (map (fun i => digits_of_N (N.of_nat i)) (seq 0 (List.length l))) l
  | Some (VStr s) =>
      combine (map (fun i => digits_of_N (N.of_nat i)) (seq 0 (String.length s)))
              (map (fun c => VStr (String c EmptyString)) (list_ascii_of_string s))
  | _ => []
  end.

(** [{ ...a, ...b }]. *)
Definition spread (a b : option jsval) : jsval :=
  VObj (spread2 (own_entries a) (own_entries b)).

(** The handler mutates [parsedRoot] through the alias [cursor]; here the
    parent after the write is put back at [parentPath] in the root. *)
Definition put_child (v : jsval) (k : string) (child : jsval) : jsval :=
  match v with
  | VObj o => VObj (obj_replace k child o)
  | VArr l =>
      match array_index k with
      | Some i =>
          if (N.to_nat i <? List.length l)%nat
          then VArr (arr_set (N.to_nat i) child l) else v
      | None => v
      end
  | _ => v
  end.

Fixpoint plug (root : jsval) (p : list seg) (parent : jsval) : jsval :=
  match p with
  | [] => parent
  | s :: p' =>
      match js_get (Some root) (ToPropertyKey s) with
      | Ok (Some child) => put_child root (ToPropertyKey s) (plug child p' parent)
      | _ => root
      end
  end.

Definition is_plain_object (v : option jsval) : bool :=
  truthy v && String.eqb (typeof v) "object" && negb (isArray v).

Definition isEditingObjectFields (nodeRows : list row) : bool :=
  (0 <? List.length nodeRows)%nat && existsb key_truthy nodeRows.

Definition invalid_json_message : string :=
  "Invalid JSON. Please enter valid JSON for objects/arrays.".

Definition unresolved_path_message : string :=
  "Unable to resolve target path in JSON.".

Open Scope M_scope.

(** The parse of [editedText], with the fallback of a scalar leaf. *)
Definition determine_newValue (nodeData : option NodeData) : M jsval :=
  editedText <- getEditedText ;;
  try_catch (lift (JSON_parse editedText))
    (fun _ =>
       let nodeRows := rows_of nodeData in
       match nodeRows with
       | [r] =>
           if negb (key_truthy r) then ret (VStr editedText)
           else throw (Error invalid_json_message)
       | _ => throw (Error invalid_json_message)
       end).

(** The write of a non-root edit through [cursor]: the parent after the
    write.  [Object.keys(newValue).length === 1] is the match on the single
    entry [newKey], [newVal] of [newValue]. *)
Definition write_target (nodeRows : list row) (cursor : option jsval)
    (lastKey : string) (newValue : jsval) : result jsval :=
  (target <- js_get cursor lastKey ;;
   if isEditingObjectFields nodeRows && is_plain_object target
      && is_plain_object (Some newValue)
   then js_set cursor lastKey (spread target (Some newValue))
   else
     match nodeRows, own_entries (Some newValue) with
     | [r], [(newKey, newVal)] =>
         if key_truthy r && is_plain_object (Some newValue)
         then
           let oldKey := match key r with Some k => k | None => EmptyString end in
           target' <- js_get cursor lastKey ;;
           if String.eqb (typeof target') "object" && negb (isArray target')
           then
             let parentObj := target' in
             parentObj1 <- js_set parentObj newKey newVal ;;
             parentObj2 <- (if negb (String.eqb newKey oldKey)
                            then js_delete (Some parentObj1) oldKey
                            else Ok parentObj1) ;;
             js_set cursor lastKey parentObj2
           else js_set cursor lastKey newValue
         else js_set cursor lastKey newValue
     | _, _ => js_set cursor lastKey newValue
     end)%result.

(** The body of the [try] block of the Save handler. *)
Definition save_body (nodeData : option NodeData) : M unit :=
  currentJson <- getJson ;;
  parsedRoot <- lift (if negb (String.eqb currentJson EmptyString)
                      then JSON_parse currentJson else Ok (VObj [])) ;;
  newValue <- determine_newValue nodeData ;;
  let path := path_of nodeData in
  (if (List.length path =? 0)%nat
   then
     let nodeRows := rows_of nodeData in
     if isEditingObjectFields nodeRows && is_plain_object (Some newValue)
     then
       let existingRootIsObject := is_plain_object (Some parsedRoot) in
       let merged := if existingRootIsObject
                     then spread (Some parsedRoot) (Some newValue)
                     else newValue in
       let finalJson := JSON_stringify merged in
       setJson finalJson ;;
       emitJsonUpdate finalJson
     else
       let finalJson := JSON_stringify newValue in
       setJson finalJson ;;
       emitJsonUpdate finalJson
   else
     t <- lift (traverseToParent parsedRoot path) ;;
     match cursor t, lastKey t with
     | Some cur, Some last =>
         let nodeRows := rows_of nodeData in
         parent' <- lift (write_target nodeRows (Some cur) (ToPropertyKey last)
                            newValue) ;;
         let finalJson := JSON_stringify (plug parsedRoot (parentPath t) parent') in
         setJson finalJson ;;
         emitJsonUpdate finalJson
     | _, _ => throw (Error unresolved_path_message)
     end) ;;
  setIsEditing false ;;
  setEditedText EmptyString ;;
  setError None ;;
  onClose.

(** The [onClick] of the Save button. *)
Definition save (nodeData : option NodeData) : M unit :=
  try_catch (save_body nodeData) (fun err => setError (Some err)).

Close Scope M_scope.

(** ** The editor page: the listener of [json:update] *)

Record monaco : Type := {
  buffer : string;               (* what [getValue] returns *)
  setValue_calls : list string   (* the arguments of [setValue], in order *)
}.

Record editor : Type := {
  editorValue : string;          (* the state of [React.useState] *)
  updates : nat;                 (* state changes that schedule a render *)
  monacoRef : option monaco      (* [monacoRef.current] *)
}.

(** [setEditorValue(updater)]: React keeps the state, and schedules
    nothing, when the updater returns the value it was given. *)
Definition setEditorValue (updater : string -> string) (e : editor) : editor :=
  let next := updater (editorValue e) in
  if String.eqb next (editorValue e) then e
  else {| editorValue := next; updates := S (updates e);
          monacoRef := monacoRef e |}.

Definition setValue (s : string) (m : monaco) : monaco :=
  {| buffer := s; setValue_calls := setValue_calls m ++ [s] |}.

(** [handler]: [detail] is the string carried by the event. *)
Definition handler (detail : string) (e : editor) : editor :=
  if String.eqb detail EmptyString then e
  else
    let newJson := detail in
    let e1 := setEditorValue
                (fun prev => if String.eqb prev newJson then prev else newJson) e in
    match monacoRef e1 with
    | Some m =>
        let current := buffer m in
        if negb (String.eqb current newJson)
        then {| editorValue := editorValue e1; updates := updates e1;
                monacoRef := Some (setValue newJson m) |}
        else e1
    | None => e1
    end.

(** ** The handler as a function of the stored document and of the input

    [edit_value] is the value that the handler serializes, [edit] its text;
    [save_run] below shows that [save] commits exactly this text, or
    rejects with the exception of [edit]. *)

Definition read_root (currentJson : string) : result jsval :=
  if negb (String.eqb currentJson EmptyString) then JSON_parse currentJson
  else Ok (VObj []).

Definition new_value (nodeData : option NodeData) (editedText : string)
  : result jsval :=
  match JSON_parse editedText with
  | Ok v => Ok v
  | Throw _ =>
      match rows_of nodeData with
      | [r] =>
          if negb (key_truthy r) then Ok (VStr editedText)
          else Throw (Error invalid_json_message)
      | _ => Throw (Error invalid_json_message)
      end
  end.

Definition edit_root (nodeRows : list row) (parsedRoot newValue : jsval) : jsval :=
  if isEditingObjectFields nodeRows && is_plain_object (Some newValue)
  then if is_plain_object (Some parsedRoot)
       then spread (Some parsedRoot) (Some newValue) else newValue
  else newValue.

Definition edit_path (nodeRows : list row) (fullPath : list seg)
    (parsedRoot newValue : jsval) : result jsval :=
  (t <- traverseToParent parsedRoot fullPath ;;
   match cursor t, lastKey t with
   | Some cur, Some last =>
       parent' <- write_target nodeRows (Some cur) (ToPropertyKey last) newValue ;;
       Ok (plug parsedRoot (parentPath t) parent')
   | _, _ => Throw (Error unresolved_path_message)
   end)%result.

Definition edit_value (nodeData : option NodeData)
    (currentJson editedText : string) : result jsval :=
  (parsedRoot <- read_root currentJson ;;
   newValue <- new_value nodeData editedText ;;
   if (List.length (path_of nodeData) =? 0)%nat
   then Ok (edit_root (rows_of nodeData) parsedRoot newValue)
   else edit_path (rows_of nodeData) (path_of nodeData) parsedRoot newValue)%result.

Definition edit (nodeData : option NodeData) (currentJson editedText : string)
  : result string :=
  (v <- edit_value nodeData currentJson editedText ;; Ok (JSON_stringify v))%result.

(** The world after a save that wrote [s], and after one that threw [e]. *)
Definition committed (w : world) (s : string) : world :=
  {| json := s;
     calls := calls w ++ [SetJson s; DispatchEvent "json:update" s; OnClose];
     isEditing := false; editedText := EmptyString; error := None |}.

Definition rejected (w : world) (e : exn) : world :=
  {| json := json w; calls := calls w; isEditing := isEditing w;
     editedText := editedText w; error := Some e |}.

(** ** Values in canonical form

    The values that [JSON.parse] builds: in every object the keys are
    distinct, the integer-like ones first and ascending. *)

Definition key_before (k k' : string) : Prop :=
  match array_index k, array_index k' with
  | Some i, Some j => (i < j)%N
  | Some _, None => True
  | None, Some _ => False
  | None, None => True
  end.

Fixpoint keys_ok (ks : list string) : Prop :=
  match ks with
  | [] => True
  | k :: t =>
      ~ In k t /\ keys_ok t /\ (forall k', In k' t -> key_before k k')
  end.

Fixpoint canon (v : jsval) : Prop :=
  match v with
  | VArr l =>
      (fix all (l : list jsval) : Prop :=
         match l with
         | [] => True
         | x :: t => canon x /\ all t
         end) l
  | VObj o =>
      keys_ok (map fst o) /\
      (fix all (l : list (string * jsval)) : Prop :=
         match l with
         | [] => True
         | (_, x) :: t => canon x /\ all t
         end) o
  | VNum x => number_ok x
  | _ => True
  end.

(** ** Notions used in the proofs about [JSON_parse] *)

(** The text after a number must not go on with the number. *)
Definition ends_number (cs : chars) : Prop :=
  match cs with
  | [] => True
  | c :: _ =>
      is_digit c = false /\ (N_of_ascii c =? 46)%N = false /\
      (N_of_ascii c =? 101)%N = false /\ (N_of_ascii c =? 69)%N = false
  end.

(** The elements and the members printed after the first one. *)
Definition elements_tail (ind : nat) : list jsval -> chars :=
  fix more (l : list jsval) : chars :=
    match l with
    | [] => []
    | y :: ys => ","%char :: nl :: indent ind ++ serialize ind y ++ more ys
    end.

Definition members_tail (ind : nat) : list (string * jsval) -> chars :=
  fix more (l : list (string * jsval)) : chars :=
    match l with
    | [] => []
    | (k, y) :: ys =>
        ","%char :: nl :: indent ind ++
        QuoteJSONString k ++ lit ": " ++ serialize ind y ++ more ys
    end.

(** The number of nodes of a value: the fuel that reading it back takes. *)
Fixpoint size (v : jsval) : nat :=
  match v with
  | VArr l =>
      S ((fix sum (l : list jsval) : nat :=
            match l with
            | [] => 0
            | x :: t => S (size x + sum t)
            end) l)
  | VObj o =>
      S ((fix sum (l : list (string * jsval)) : nat :=
            match l with
            | [] => 0
            | (_, x) :: t => S (size x + sum t)
            end) o)
  | _ => 1
  end.

Fixpoint size_elements (l : list jsval) : nat :=
  match l with
  | [] => 0
  | x :: t => S (size x + size_elements t)
  end.

Fixpoint size_members (l : list (string * jsval)) : nat :=
  match l with
  | [] => 0
  | (_, x) :: t => S (size x + size_members t)
  end.

(** The property of one value that the induction carries. *)
Definition reads_back (v : jsval) : Prop :=
  canon v ->
  forall (ind : nat) (rest : chars) (fuel : nat),
    size v <= fuel ->
    ends_number rest ->
    parse_value fuel (serialize ind v ++ rest) = Some (v, rest).

(** ** Notions used in the statements about the handler *)

(** The condition of the rename branch: one keyed row, and a new value that
    is a plain object with one key. *)
Definition rename_attempt (nodeRows : list row) (newValue : jsval) : bool :=
  match nodeRows, own_entries (Some newValue) with
  | [r], [_] => key_truthy r && is_plain_object (Some newValue)
  | _, _ => false
  end.

Definition is_null (v : option jsval) : bool :=
  match v with
  | Some VNull => true
  | _ => false
  end.

Definition is_container (v : jsval) : bool :=
  match v with
  | VObj _ => true
  | VArr _ => true
  | _ => false
  end.


(** ** Worlds and rows of the examples *)

(** The modal open on a node, with [input] typed in the text area and
    [doc] in the store, both written with apostrophes. *)
Definition editing (doc input : string) : world :=
  {| json := dq doc; calls := []; isEditing := true;
     editedText := dq input; error := None |}.

Definition keyed (k : string) (v : jsval) (ty : string) : row :=
  {| key := Some k; value := v; type := ty |}.

Definition unkeyed (v : jsval) (ty : string) : row :=
  {| key := None; value := v; type := ty |}.

Definition node (rows : list row) (p : list seg) : option NodeData :=
  Some {| text := rows; path := p |}.

(** Documents of the testable properties of the specification. *)
Definition replace_node : option NodeData :=
  node [unkeyed (VNum 1) "number"] [SKey "a"].
Definition replace_world : world := editing "{'a':{'x':1}}" "42".

Definition merge_node : option NodeData :=
  node [keyed "a" (VNum 1) "number"; keyed "b" (VNum 2) "number"] [].
Definition merge_world : world := editing "{'a':1,'b':2}" "{'b':3}".

Definition literal_node : option NodeData :=
  node [unkeyed (VStr "hello") "string"] [SKey "a"].
Definition literal_world : world := editing "{'a':'hello'}" "not json".

Definition invalid_path_node : option NodeData := node [] [SKey "b"; SKey "c"].


(** The world in which the same input is saved again on the store that a
    first save left. *)
Definition again (w w1 : world) : world :=
  {| json := json w1; calls := calls w1; isEditing := true;
     editedText := editedText w; error := None |}.

(** * The rest of the modal and of the editor page *)

(** ** NodeModal: the text shown for a node and its path *)

(** [`${v}`]: an array is its elements joined by commas, [null] among
    them being empty. *)
Fixpoint ToString (v : jsval) : string :=
  match v with
  | VNull => "null"
  | VBool true => "true"
  | VBool false => "false"
  | VNum x => string_of_list_ascii (NumberToString x)
  | VStr s => s
  | VArr l =>
      (fix join (l : list jsval) : string :=
         match l with
         | [] => EmptyString
         | x :: t =>
             ((match x with VNull => EmptyString | _ => ToString x end) ++
              match t with
              | [] => EmptyString
              | _ :: _ => "," ++ join t
              end)%string
         end) l
  | VObj _ => "[object Object]"
  end.

(** The body of the [forEach] of [normalizeNodeData]. *)
Definition add_row (o : obj) (r : row) : obj :=
  if negb (String.eqb (type r) "array") && negb (String.eqb (type r) "object")
  then
    match key r with
    | Some k => if negb (String.eqb k EmptyString) then obj_set k (value r) o else o
    | None => o
    end
  else o.

Definition rows_object (nodeRows : list row) : obj :=
  fold_left add_row nodeRows [].

Definition normalizeNodeData (nodeRows : list row) : string :=
  match nodeRows with
  | [] => "{}"
  | [r] =>
      if negb (key_truthy r) then ToString (value r)
      else JSON_stringify (VObj (rows_object nodeRows))
  | _ :: _ :: _ => JSON_stringify (VObj (rows_object nodeRows))
  end.

(** [segments.join("][")]. *)
Fixpoint join_segments (l : list string) : string :=
  match l with
  | [] => EmptyString
  | [s] => s
  | s :: t => (s ++ "][" ++ join_segments t)%string
  end.

Definition segment_text (s : seg) : string :=
  match s with
  | SIdx n => digits_of_N n
  | SKey k => String dquote (k ++ String dquote EmptyString)%string
  end.

(** [jsonPathToString(nodeData?.path)]. *)
Definition jsonPathToString (p : option (list seg)) : string :=
  match p with
  | None => "$"
  | Some [] => "$"
  | Some l => ("$[" ++ join_segments (map segment_text l) ++ "]")%string
  end.

(** ** NodeModal: the buttons and the text area *)

Open Scope M_scope.

(** The [onClick] of Edit. *)
Definition onEdit (nodeData : option NodeData) : M unit :=
  setEditedText (normalizeNodeData (rows_of nodeData)) ;;
  setIsEditing true.

(** The [onClick] of Cancel. *)
Definition onCancel : M unit :=
  setIsEditing false ;;
  setEditedText EmptyString ;;
  setError None.

(** The effect run when the modal opens or closes or the node changes. *)
Definition resetEditing : M unit :=
  setIsEditing false ;;
  setEditedText EmptyString ;;
  setError None.

(** The [onChange] of the text area. *)
Definition onChange (text : string) : M unit := setEditedText text.

Close Scope M_scope.

(** What the user can do: Edit is rendered when the modal is not editing,
    the text area, Cancel and Save when it is, the close button always; the
    effect may run at any time, and the selected node is whatever the graph
    store holds. *)
Inductive step : world -> world -> Prop :=
| step_edit (nodeData : option NodeData) (w : world) :
    isEditing w = false -> step w (snd (onEdit nodeData w))
| step_change (text : string) (w : world) :
    isEditing w = true -> step w (snd (onChange text w))
| step_cancel (w : world) :
    isEditing w = true -> step w (snd (onCancel w))
| step_save (nodeData : option NodeData) (w : world) :
    isEditing w = true -> step w (snd (save nodeData w))
| step_close (w : world) :
    step w (snd (onClose w))
| step_reset (w : world) :
    step w (snd (resetEditing w)).

Inductive reachable (w0 : world) : world -> Prop :=
| reach_start : reachable w0 w0
| reach_step (w w' : world) : reachable w0 w -> step w w' -> reachable w0 w'.

(** The component as mounted: not editing, no text, no error. *)
Definition mounted (w : world) : Prop :=
  isEditing w = false /\ editedText w = EmptyString /\ error w = None.

(** The texts written to the store, and the texts broadcast, in order. *)
Definition stored (cs : list call) : list string :=
  flat_map (fun c => match c with SetJson s => [s] | _ => [] end) cs.

Definition broadcast (cs : list call) : list string :=
  flat_map (fun c =>
              match c with
              | DispatchEvent name detail =>
                  if String.eqb name "json:update" then [detail] else []
              | _ => []
              end) cs.

(** The text area after the inputs [texts], typed one after the other. *)
Definition typed (texts : list string) (w : world) : world :=
  fold_left (fun w text => snd (onChange text w)) texts w.

(** ** The editor page: the effect at mount, and the delivery of events *)

(** The initial sync of the effect: the store, when it holds a text, is
    copied into the state and into the Monaco buffer. *)
Definition mount (storeJson : string) (e : editor) : editor :=
  let initial := storeJson in
  if negb (String.eqb initial EmptyString) then
    let e1 := setEditorValue (fun _ => initial) e in
    match monacoRef e1 with
    | Some m =>
        {| editorValue := editorValue e1; updates := updates e1;
           monacoRef := Some (setValue initial m) |}
    | None => e1
    end
  else e.

(** [window.dispatchEvent] runs the listeners of the event: the calls of a
    world, delivered in order to the listener of the page. *)
Definition deliver (cs : list call) (e : editor) : editor :=
  fold_left
    (fun e c =>
       match c with
       | DispatchEvent name detail =>
           if String.eqb name "json:update" then handler detail e else e
       | _ => e
       end) cs e.

(** ** The document at a path *)

(** [reads v p x]: the path [p] leads from [v], through objects and
    arrays, to the value [x]. *)
Inductive reads : jsval -> list seg -> jsval -> Prop :=
| reads_here (v : jsval) : reads v [] v
| reads_key (o : obj) (s : seg) (p : list seg) (c x : jsval) :
    obj_lookup (ToPropertyKey s) o = Some c ->
    reads c p x -> reads (VObj o) (s :: p) x
| reads_index (l : list jsval) (s : seg) (p : list seg) (i : N) (c x : jsval) :
    array_index (ToPropertyKey s) = Some i ->
    nth_error l (N.to_nat i) = Some c ->
    reads c p x -> reads (VArr l) (s :: p) x.




Definition quote_free (k : string) : Prop :=
  ~ In dquote (list_ascii_of_string k).

Definition keys_quote_free (p : list seg) : Prop :=
  forall k, In (SKey k) p -> quote_free k.


(** The text of a path after its [$]: one pair of brackets per segment. *)
Fixpoint path_text (p : list seg) : string :=
  match p with
  | [] => EmptyString
  | s :: t => ("[" ++ segment_text s ++ "]" ++ path_text t)%string
  end.

(** ** A document, its nodes and some sessions of the modal *)

(** The modal as mounted on a store that holds [doc]. *)
Definition viewing (doc : string) : world :=
  {| json := dq doc; calls := []; isEditing := false;
     editedText := EmptyString; error := None |}.

Definition person_doc : string :=
  "{'name':'Ann','age':30,'tags':['a','42'],'address':{'city':'Oslo','zip':null}}".

Definition person_root : jsval :=
  VObj [("name", VStr "Ann"); ("age", VNum 30);
        ("tags", VArr [VStr "a"; VStr "42"]);
        ("address", VObj [("city", VStr "Oslo"); ("zip", VNull)])].

Definition person_world : world := viewing person_doc.

(** The node of the object at [address], of the first and of the second
    tag, and a node without rows at [tags]. *)
Definition address_rows : list row :=
  [keyed "city" (VStr "Oslo") "string"; keyed "zip" VNull "null"].
Definition address_node : option NodeData := node address_rows [SKey "address"].


Definition tags_node : option NodeData := node [] [SKey "tags"].

(** A node with one keyed row whose path leads to [null]. *)
Definition zip_node : option NodeData :=
  node [keyed "zip" VNull "null"] [SKey "address"; SKey "zip"].

(** Edit on [address], a text that is not JSON, Save, Cancel. *)
Definition cancelled_world : world :=
  snd (onCancel
         (snd (save address_node
                 (snd (onChange "{oops"
                         (snd (onEdit address_node person_world))))))).

(** Edit on [address], a new [zip], Save. *)
Definition zip_world : world :=
  snd (onChange (dq "{'zip':'0150'}") (snd (onEdit address_node person_world))).
Definition saved_world : world := snd (save address_node zip_world).

Definition page : editor :=
  {| editorValue := EmptyString; updates := 0;
     monacoRef := Some {| buffer := EmptyString; setValue_calls := [] |} |}.
(** * Properties *)

(** ** Objects *)

Lemma canon_arr (l : list jsval) : canon (VArr l) <-> Forall canon l.
Proof.
  induction l as [|x t IH]; cbn.
  - split; auto.
  - split.
    + intros [Hx Ht]. constructor; [exact Hx | apply IH, Ht].
    + intros H. inversion H; subst. split; [assumption | apply IH; assumption].
Qed.

Lemma canon_obj (o : obj) :
  canon (VObj o) <->
  keys_ok (map fst o) /\ Forall (fun kv => canon (snd kv)) o.
Proof.
  cbn. apply and_iff_compat_l.
  induction o as [|[k x] t IH]; cbn.
  - split; auto.
  - split.
    + intros [Hx Ht]. constructor; [exact Hx | apply IH, Ht].
    + intros H. inversion H; subst. split; [assumption | apply IH; assumption].
Qed.

Lemma array_index_name (k : string) (i : N) :
  array_index k = Some i -> k = digits_of_N i.
Proof.
  unfold array_index.
  destruct (NilEmpty.uint_of_string k) as [d|]; [|discriminate].
  destruct (String.eqb_spec (digits_of_N (N.of_uint d)) k) as [E|]; cbn;
    [|discriminate].
  destruct (N.of_uint d <? 4294967295)%N; [|discriminate].
  intros [= <-]. symmetry; exact E.
Qed.

Lemma array_index_inj (k k' : string) (i : N) :
  array_index k = Some i -> array_index k' = Some i -> k = k'.
Proof.
  intros H H'. apply array_index_name in H, H'. congruence.
Qed.

Lemma has_key_In (k : string) (o : obj) :
  has_key k o = true <-> In k (map fst o).
Proof.
  unfold has_key. induction o as [|[k' v] t IH]; cbn.
  - split; [discriminate | tauto].
  - destruct (String.eqb_spec k k') as [->|Hne].
    + split; auto.
    + rewrite IH. split; [auto | intros [E|H]; [congruence | exact H]].
Qed.

Lemma has_key_false (k : string) (o : obj) :
  has_key k o = false <-> ~ In k (map fst o).
Proof.
  rewrite <- has_key_In. destruct (has_key k o); split; congruence.
Qed.

Lemma keys_replace (k : string) (v : jsval) (o : obj) :
  map fst (obj_replace k v o) = map fst o.
Proof.
  induction o as [|[k' v'] t IH]; cbn; [reflexivity|].
  destruct (String.eqb k k'); cbn; [reflexivity | now rewrite IH].
Qed.

Lemma In_keys_insert_index (x : string) (i : N) (k : string) (v : jsval) (o : obj) :
  In x (map fst (obj_insert_index i k v o)) <-> x = k \/ In x (map fst o).
Proof.
  induction o as [|[k' v'] t IH]; cbn.
  - intuition congruence.
  - destruct (array_index k') as [j|]; [destruct (j <? i)%N|]; cbn;
      rewrite ?IH; intuition congruence.
Qed.

Lemma keys_ok_insert_index (i : N) (k : string) (v : jsval) (o : obj) :
  array_index k = Some i ->
  ~ In k (map fst o) ->
  keys_ok (map fst o) ->
  keys_ok (map fst (obj_insert_index i k v o)).
Proof.
  intros Hk. induction o as [|[k' v'] t IH]; cbn; intros Hnin Hok.
  - tauto.
  - destruct Hok as (Hn' & Hok & Hbefore).
    destruct (array_index k') as [j|] eqn:Hk'.
    + destruct (N.ltb_spec j i) as [Hlt|Hge]; cbn.
      * split; [|split].
        -- rewrite In_keys_insert_index. intros [E|H]; [|tauto].
           apply Hnin. left. auto.
        -- apply IH; tauto.
        -- intros x. rewrite In_keys_insert_index. intros [->|H].
           ++ unfold key_before. rewrite Hk', Hk. exact Hlt.
           ++ apply Hbefore, H.
      * split; [tauto|]. split; [cbn; tauto|].
        intros x [<-|H].
        -- unfold key_before. rewrite Hk, Hk'.
           assert (j <> i).
           { intros ->. apply Hnin. left.
             apply (array_index_inj _ _ i); assumption. }
           lia.
        -- specialize (Hbefore x H). unfold key_before in *.
           rewrite Hk. rewrite Hk' in Hbefore.
           destruct (array_index x); [lia | exact I].
    + cbn. split; [tauto|]. split; [cbn; tauto|].
      intros x [<-|H].
      * unfold key_before. rewrite Hk, Hk'. exact I.
      * specialize (Hbefore x H). unfold key_before in *.
        rewrite Hk. rewrite Hk' in Hbefore.
        destruct (array_index x); [contradiction | exact I].
Qed.

Lemma keys_ok_snoc (k : string) (ks : list string) :
  array_index k = None ->
  ~ In k ks ->
  keys_ok ks ->
  keys_ok (ks ++ [k]).
Proof.
  intros Hk. induction ks as [|k' t IH]; cbn; intros Hnin Hok.
  - tauto.
  - destruct Hok as (Hn' & Hok & Hbefore). split; [|split].
    + rewrite in_app_iff. cbn. intros [H|[E|[]]]; [tauto|].
      apply Hnin. left. auto.
    + apply IH; tauto.
    + intros x. rewrite in_app_iff. cbn. intros [H|[<-|[]]].
      * apply Hbefore, H.
      * unfold key_before. rewrite Hk. destruct (array_index k'); exact I.
Qed.

Lemma keys_ok_set (k : string) (v : jsval) (o : obj) :
  keys_ok (map fst o) -> keys_ok (map fst (obj_set k v o)).
Proof.
  intros Hok. unfold obj_set.
  destruct (has_key k o) eqn:Hk.
  - rewrite keys_replace. exact Hok.
  - apply has_key_false in Hk.
    destruct (array_index k) as [i|] eqn:Hi.
    + apply keys_ok_insert_index; assumption.
    + rewrite map_app. cbn. apply keys_ok_snoc; assumption.
Qed.

Lemma Forall_replace (Q : jsval -> Prop) (k : string) (v : jsval) (o : obj) :
  Q v -> Forall (fun kv => Q (snd kv)) o ->
  Forall (fun kv => Q (snd kv)) (obj_replace k v o).
Proof.
  intros Hv. induction 1 as [|[k' v'] t Hx Ht IH]; cbn.
  - constructor.
  - destruct (String.eqb k k'); constructor; auto.
Qed.

Lemma Forall_insert_index (Q : jsval -> Prop) (i : N) (k : string) (v : jsval)
    (o : obj) :
  Q v -> Forall (fun kv => Q (snd kv)) o ->
  Forall (fun kv => Q (snd kv)) (obj_insert_index i k v o).
Proof.
  intros Hv. induction 1 as [|[k' v'] t Hx Ht IH]; cbn.
  - constructor; [exact Hv | constructor].
  - destruct (array_index k') as [j|]; [destruct (j <? i)%N|];
      repeat constructor; auto.
Qed.

Lemma Forall_set (Q : jsval -> Prop) (k : string) (v : jsval) (o : obj) :
  Q v -> Forall (fun kv => Q (snd kv)) o ->
  Forall (fun kv => Q (snd kv)) (obj_set k v o).
Proof.
  intros Hv Ho. unfold obj_set. destruct (has_key k o).
  - apply Forall_replace; assumption.
  - destruct (array_index k).
    + apply Forall_insert_index; assumption.
    + apply Forall_app. split; [assumption | repeat constructor; exact Hv].
Qed.

Lemma canon_obj_set (k : string) (v : jsval) (o : obj) :
  canon v -> canon (VObj o) -> canon (VObj (obj_set k v o)).
Proof.
  rewrite !canon_obj. intros Hv [Hk Ho]. split.
  - apply keys_ok_set, Hk.
  - apply Forall_set; assumption.
Qed.

Ltac run_M :=
  cbv [save save_body determine_newValue emitJsonUpdate bind ret throw
       try_catch lift getJson setJson dispatchEvent onClose getEditedText
       setIsEditing setEditedText setError];
  cbn [json calls isEditing editedText error].

Ltac save_cases nodeData rows root nv :=
  unfold edit_root;
  destruct (List.length (path_of nodeData) =? 0)%nat;
  [ destruct (isEditingObjectFields rows && is_plain_object (Some nv))
  | destruct (traverseToParent root (path_of nodeData)) as [t|?];
    cbn [rbind]; [|reflexivity];
    destruct (cursor t) as [cur|]; [|reflexivity];
    destruct (lastKey t) as [last|]; [|reflexivity];
    destruct (write_target rows (Some cur) (ToPropertyKey last) nv);
    cbn [rbind]; [|reflexivity] ];
  cbn [rbind json calls isEditing editedText error];
  rewrite <- !app_assoc; reflexivity.

Lemma save_run (nodeData : option NodeData) (w : world) :
  save nodeData w =
  (Ok tt, match edit nodeData (json w) (editedText w) with
          | Ok s => committed w s
          | Throw e => rejected w e
          end).
Proof.
  destruct w as [j c ie et er].
  unfold edit, edit_value, read_root, new_value, edit_path, committed, rejected.
  run_M.
  destruct (if negb (j =? EmptyString)%string then JSON_parse j else Ok (VObj []))
    as [root|e]; cbn [rbind]; [|reflexivity].
  destruct (JSON_parse et) as [nv|e]; cbn [rbind].
  - save_cases nodeData (rows_of nodeData) root nv.
  - destruct (rows_of nodeData) as [|r [|r' rs]]; cbn [rbind]; try reflexivity.
    destruct (negb (key_truthy r)); cbn [rbind]; [|reflexivity].
    save_cases nodeData [r] root (VStr et).
Qed.

Lemma save_committed (nodeData : option NodeData) (w : world) (s : string) :
  edit nodeData (json w) (editedText w) = Ok s ->
  snd (save nodeData w) = committed w s.
Proof. intros H. rewrite save_run, H. reflexivity. Qed.

Lemma save_rejected (nodeData : option NodeData) (w : world) (e : exn) :
  edit nodeData (json w) (editedText w) = Throw e ->
  snd (save nodeData w) = rejected w e.
Proof. intros H. rewrite save_run, H. reflexivity. Qed.

(** ** Atomicity and order of the effects *)

(** C2: a save either writes the store, broadcasts and closes, in this
    order and with one text, or leaves the store and the calls as they were
    and records the exception; nothing in between is reachable. *)
Theorem save_atomic (nodeData : option NodeData) (w : world) :
  let w' := snd (save nodeData w) in
  (exists s : string,
      json w' = s /\
      calls w' = calls w ++ [SetJson s; DispatchEvent "json:update" s; OnClose] /\
      error w' = None)
  \/
  (json w' = json w /\ calls w' = calls w /\
   isEditing w' = isEditing w /\ editedText w' = editedText w /\
   exists e : exn, error w' = Some e).
Proof.
  cbv zeta. rewrite save_run. cbn [snd].
  destruct (edit nodeData (json w) (editedText w)) as [s|e].
  - left. exists s. repeat split.
  - right. repeat split. exists e. reflexivity.
Qed.

(** C8: when a save succeeds, by any of its three branches, the calls it
    adds are the write of the store, then the broadcast of the same text,
    then the close; the store holds that text. *)
Theorem store_update_before_broadcast (nodeData : option NodeData) (w : world) :
  error (snd (save nodeData w)) = None ->
  exists s : string,
    calls (snd (save nodeData w)) =
      calls w ++ [SetJson s; DispatchEvent "json:update" s; OnClose] /\
    json (snd (save nodeData w)) = s.
Proof.
  rewrite save_run. cbn [snd].
  destruct (edit nodeData (json w) (editedText w)) as [s|e]; cbn.
  - intros _. exists s. split; reflexivity.
  - discriminate.
Qed.

(** ** Numbers *)

Lemma digits_all (d : Decimal.uint) :
  Forall (fun c => is_digit c = true) (lit (NilEmpty.string_of_uint d)).
Proof.
  induction d; cbn; constructor; auto.
Qed.

Lemma digits_nonempty (n : N) :
  exists c tl, lit (digits_of_N n) = c :: tl /\ is_digit c = true.
Proof.
  pose proof (digits_all (N.to_uint n)) as Hall.
  unfold digits_of_N in *.
  destruct (lit (NilEmpty.string_of_uint (N.to_uint n))) as [|c tl] eqn:E.
  - exfalso. destruct n as [|p]; [discriminate E|].
    cbn in E. pose proof (DecimalPos.Unsigned.to_uint_nonnil p) as Hp.
    destruct (Pos.to_uint p); [congruence | discriminate E ..].
  - exists c, tl. split; [reflexivity|]. now inversion Hall.
Qed.

Lemma N_of_digits_of_N (n : N) : N_of_digits (lit (digits_of_N n)) = n.
Proof.
  unfold N_of_digits, lit. rewrite string_of_list_ascii_of_string.
  unfold digits_of_N. rewrite NilEmpty.usu. apply DecimalN.Unsigned.of_to.
Qed.

Lemma take_digits_app (ds rest : chars) :
  Forall (fun c => is_digit c = true) ds ->
  match rest with [] => True | c :: _ => is_digit c = false end ->
  take_digits (ds ++ rest) = (ds, rest).
Proof.
  intros Hds Hrest. induction Hds as [|c t Hc Ht IH]; cbn [take_digits app].
  - destruct rest as [|c r]; [reflexivity|].
    cbn [take_digits] in *. now rewrite Hrest.
  - rewrite Hc, IH. reflexivity.
Qed.

Lemma take_digits_spec (cs d r : chars) :
  take_digits cs = (d, r) ->
  Forall (fun c => is_digit c = true) d /\ cs = d ++ r.
Proof.
  revert d r. induction cs as [|c t IH]; cbn [take_digits]; intros d r H.
  - injection H as <- <-. split; [constructor | reflexivity].
  - destruct (is_digit c) eqn:Hc.
    + destruct (take_digits t) as [d' r'] eqn:E. injection H as <- <-.
      destruct (IH d' r' eq_refl) as [Hd ->]. split; [constructor; auto | reflexivity].
    + injection H as <- <-. split; [constructor | reflexivity].
Qed.

Lemma parse_digits_app (ds rest : chars) :
  ds <> [] ->
  Forall (fun c => is_digit c = true) ds ->
  match rest with [] => True | c :: _ => is_digit c = false end ->
  parse_digits (ds ++ rest) = Some (ds, rest).
Proof.
  intros Hne Hds Hrest. unfold parse_digits.
  rewrite take_digits_app by assumption.
  destruct ds; [congruence | reflexivity].
Qed.

Lemma parse_digits_spec (cs d r : chars) :
  parse_digits cs = Some (d, r) -> Forall (fun c => is_digit c = true) d.
Proof.
  unfold parse_digits. destruct (take_digits cs) as [d' r'] eqn:E.
  apply take_digits_spec in E. destruct E as [Hd _].
  destruct d'; [discriminate|]. now intros [= <- <-].
Qed.

(** *** Zeros at the ends *)

Lemma strip_leading_zeros_length (ds : chars) :
  (List.length (strip_leading_zeros ds) <= List.length ds)%nat.
Proof.
  induction ds as [|c t IH]; cbn; [lia|].
  destruct (is_zero_digit c); cbn; lia.
Qed.

Lemma strip_leading_zeros_head (c : ascii) (t : chars) :
  strip_leading_zeros (c :: t) = c :: t -> is_zero_digit c = false.
Proof.
  cbn. destruct (is_zero_digit c); [|reflexivity].
  intros H. pose proof (strip_leading_zeros_length t) as Hl.
  rewrite H in Hl. cbn in Hl. lia.
Qed.

Lemma strip_leading_zeros_fix (c : ascii) (t : chars) :
  is_zero_digit c = false -> strip_leading_zeros (c :: t) = c :: t.
Proof. intros H. cbn. now rewrite H. Qed.

Lemma strip_leading_zeros_idem (ds : chars) :
  strip_leading_zeros (strip_leading_zeros ds) = strip_leading_zeros ds.
Proof.
  induction ds as [|c t IH]; cbn; [reflexivity|].
  destruct (is_zero_digit c) eqn:E; [exact IH|]. cbn. now rewrite E.
Qed.

Lemma strip_leading_zeros_zeros (m : nat) (ds : chars) :
  strip_leading_zeros (zeros m ++ ds) = strip_leading_zeros ds.
Proof. induction m; cbn; auto. Qed.

Lemma strip_leading_zeros_suffix (ds : chars) :
  exists m, ds = firstn m ds ++ strip_leading_zeros ds /\
            List.length (strip_leading_zeros ds) = (List.length ds - m)%nat.
Proof.
  induction ds as [|c t (m & IH & Hl)]; cbn.
  - exists 0%nat. split; reflexivity.
  - destruct (is_zero_digit c).
    + exists (S m). cbn. split; [now rewrite <- IH | exact Hl].
    + exists 0%nat. split; [reflexivity | cbn; lia].
Qed.

Lemma Forall_strip_leading_zeros (Q : ascii -> Prop) (ds : chars) :
  Forall Q ds -> Forall Q (strip_leading_zeros ds).
Proof.
  induction 1 as [|c t Hc Ht IH]; cbn; [constructor|].
  destruct (is_zero_digit c); [exact IH | constructor; assumption].
Qed.

Lemma Forall_strip_trailing_zeros (Q : ascii -> Prop) (ds : chars) :
  Forall Q ds -> Forall Q (strip_trailing_zeros ds).
Proof.
  intros H. unfold strip_trailing_zeros.
  apply Forall_rev, Forall_strip_leading_zeros, Forall_rev, H.
Qed.

Lemma strip_trailing_zeros_idem (ds : chars) :
  strip_trailing_zeros (strip_trailing_zeros ds) = strip_trailing_zeros ds.
Proof.
  unfold strip_trailing_zeros. rewrite rev_involutive.
  now rewrite strip_leading_zeros_idem.
Qed.

Lemma rev_zeros (m : nat) : List.rev (zeros m) = zeros m.
Proof.
  unfold zeros. induction m as [|m IH]; [reflexivity|].
  cbn [repeat List.rev]. rewrite IH. clear IH.
  induction m as [|m IH]; [reflexivity|]. cbn [repeat app]. now rewrite IH.
Qed.

Lemma strip_trailing_zeros_zeros (m : nat) (ds : chars) :
  strip_trailing_zeros (ds ++ zeros m) = strip_trailing_zeros ds.
Proof.
  unfold strip_trailing_zeros. rewrite rev_app_distr, rev_zeros.
  now rewrite strip_leading_zeros_zeros.
Qed.

(** Stripping the zeros at the end keeps the first digit. *)
Lemma strip_trailing_zeros_head (c : ascii) (t : chars) :
  match strip_trailing_zeros (c :: t) with
  | [] => True
  | c' :: _ => c' = c
  end.
Proof.
  unfold strip_trailing_zeros.
  destruct (strip_leading_zeros_suffix (List.rev (c :: t))) as (m & E & _).
  set (s := strip_leading_zeros (List.rev (c :: t))) in *.
  assert (Hrev : c :: t = List.rev s ++ List.rev (firstn m (List.rev (c :: t)))).
  { rewrite <- rev_app_distr, <- E. now rewrite rev_involutive. }
  destruct (List.rev s) as [|c' t']; [exact I|].
  cbn in Hrev. now injection Hrev as ->.
Qed.

Lemma make_number_ok (neg : bool) (ip fp : chars) (x : Z) :
  Forall (fun c => is_digit c = true) (ip ++ fp) ->
  number_ok (make_number neg ip fp x).
Proof.
  intros Hd. unfold make_number.
  set (sig := strip_leading_zeros (ip ++ fp)).
  assert (Hsig : Forall (fun c => is_digit c = true) sig)
    by now apply Forall_strip_leading_zeros.
  assert (Hlead : strip_leading_zeros sig = sig)
    by apply strip_leading_zeros_idem.
  pose proof (Forall_strip_trailing_zeros _ _ Hsig) as Hds.
  pose proof (strip_trailing_zeros_idem sig) as Hidem.
  destruct (strip_trailing_zeros sig) as [|c t] eqn:E.
  - repeat split; try reflexivity. constructor.
  - repeat split; cbn [digits]; try assumption; [|discriminate].
    destruct sig as [|c0 t0]; [discriminate E|].
    pose proof (strip_trailing_zeros_head c0 t0) as Hh. rewrite E in Hh. subst c0.
    apply strip_leading_zeros_fix. now apply strip_leading_zeros_head in Hlead.
Qed.

Lemma parse_unsigned_ok (neg : bool) (cs : chars) (x : number) (r : chars) :
  parse_unsigned neg cs = Some (x, r) -> number_ok x.
Proof.
  unfold parse_unsigned.
  destruct (parse_int cs) as [[ip r1]|] eqn:Hi; [|discriminate].
  destruct (parse_frac r1) as [[fp r2]|] eqn:Hf; [|discriminate].
  destruct (parse_exp r2) as [[e r3]|]; [|discriminate].
  intros [= <- <-]. apply make_number_ok, Forall_app. split.
  - unfold parse_int in Hi.
    destruct (parse_digits cs) as [[d r']|] eqn:Hd; [|discriminate].
    apply parse_digits_spec in Hd.
    destruct d as [|z [|z' d']]; try (injection Hi as <- <-; exact Hd).
    destruct (is_zero_digit z); [discriminate | injection Hi as <- <-; exact Hd].
  - unfold parse_frac in Hf. destruct r1 as [|c t].
    + injection Hf as <- <-. constructor.
    + destruct (N_of_ascii c =? 46)%N.
      * eapply parse_digits_spec, Hf.
      * injection Hf as <- <-. constructor.
Qed.

Lemma parse_number_ok (cs : chars) (x : number) (r : chars) :
  parse_number cs = Some (x, r) -> number_ok x.
Proof.
  unfold parse_number. destruct cs as [|c t]; [discriminate|].
  destruct (N_of_ascii c =? 45)%N; apply parse_unsigned_ok.
Qed.

(** *** A printed number reads back *)

Lemma ends_number_digit (rest : chars) :
  ends_number rest ->
  match rest with [] => True | c :: _ => is_digit c = false end.
Proof. destruct rest; cbn; tauto. Qed.

Lemma parse_frac_none (rest : chars) :
  ends_number rest -> parse_frac rest = Some ([], rest).
Proof.
  destruct rest as [|c t]; cbn; [reflexivity|].
  intros (_ & -> & _). reflexivity.
Qed.

Lemma parse_exp_none (rest : chars) :
  ends_number rest -> parse_exp rest = Some (0%Z, rest).
Proof.
  destruct rest as [|c t]; cbn [ends_number parse_exp]; [reflexivity|].
  intros (_ & _ & -> & ->). reflexivity.
Qed.

Lemma parse_exp_print (e : Z) (rest : chars) :
  ends_number rest ->
  parse_exp ("e"%char :: (if (0 <=? e)%Z then "+"%char else "-"%char) ::
             lit (digits_of_N (Z.abs_N e)) ++ rest) = Some (e, rest).
Proof.
  intros Hrest. apply ends_number_digit in Hrest.
  destruct (digits_nonempty (Z.abs_N e)) as (c & tl & E & _).
  assert (Hp : parse_digits (lit (digits_of_N (Z.abs_N e)) ++ rest)
               = Some (lit (digits_of_N (Z.abs_N e)), rest)).
  { apply parse_digits_app; [rewrite E; discriminate | apply digits_all | exact Hrest]. }
  destruct (Z.leb_spec 0 e); cbn -[parse_digits N_of_digits lit digits_of_N];
    rewrite Hp, N_of_digits_of_N; do 2 f_equal; rewrite N2Z.inj_abs_N; lia.
Qed.

Lemma parse_int_app (ds rest : chars) :
  Forall (fun c => is_digit c = true) ds ->
  match ds with
  | [] => False
  | [_] => True
  | c :: _ :: _ => is_zero_digit c = false
  end ->
  match rest with [] => True | c :: _ => is_digit c = false end ->
  parse_int (ds ++ rest) = Some (ds, rest).
Proof.
  intros Hds Hhead Hrest. unfold parse_int.
  rewrite parse_digits_app; try assumption.
  - destruct ds as [|c [|c' t]]; try reflexivity. now rewrite Hhead.
  - destruct ds; [contradiction | discriminate].
Qed.

Lemma length_zeros (m : nat) : List.length (zeros m) = m.
Proof. apply repeat_length. Qed.

Lemma zeros_digits (m : nat) : Forall (fun c => is_digit c = true) (zeros m).
Proof. induction m; cbn; constructor; auto. Qed.

Lemma make_number_digits (neg : bool) (ip fp ds : chars) (x : Z) (c : ascii)
    (t : chars) :
  ds = c :: t ->
  strip_trailing_zeros (strip_leading_zeros (ip ++ fp)) = ds ->
  make_number neg ip fp x =
  {| negative := neg; digits := ds;
     point := Z.of_nat (List.length ip) + x
              - Z.of_nat (List.length (ip ++ fp)
                          - List.length (strip_leading_zeros (ip ++ fp))) |}.
Proof.
  intros -> H. unfold make_number. rewrite H. reflexivity.
Qed.

(** The four forms of [NumberToString], one by one. *)
Section PrintedNumber.
Variables (neg : bool) (d1 : ascii) (ds rest : chars) (n : Z).
Hypothesis Hdigits : Forall (fun c => is_digit c = true) (d1 :: ds).
Hypothesis Hlead : strip_leading_zeros (d1 :: ds) = d1 :: ds.
Hypothesis Htrail : strip_trailing_zeros (d1 :: ds) = d1 :: ds.
Hypothesis Hrest : ends_number rest.

Let x : number := {| negative := neg; digits := d1 :: ds; point := n |}.
Let k : Z := Z.of_nat (List.length (d1 :: ds)).

Lemma d1_not_zero : is_zero_digit d1 = false.
Proof. exact (strip_leading_zeros_head _ _ Hlead). Qed.

Lemma printed_integer :
  (k <= n)%Z ->
  parse_unsigned neg (((d1 :: ds) ++ zeros (Z.to_nat (n - k))) ++ rest)
  = Some (x, rest).
Proof.
  intros Hk. unfold parse_unsigned.
  rewrite parse_int_app.
  - rewrite parse_frac_none, parse_exp_none by exact Hrest.
    do 2 f_equal.
    rewrite (make_number_digits neg _ [] (d1 :: ds) 0 d1 ds eq_refl).
    + rewrite app_nil_r.
      change ((d1 :: ds) ++ zeros (Z.to_nat (n - k)))
        with (d1 :: ds ++ zeros (Z.to_nat (n - k))).
      rewrite (strip_leading_zeros_fix _ _ d1_not_zero).
      unfold x. f_equal.
      cbn [List.length]. rewrite length_app, length_zeros.
      subst k. cbn [List.length] in *. lia.
    + rewrite app_nil_r.
      change ((d1 :: ds) ++ zeros (Z.to_nat (n - k)))
        with (d1 :: ds ++ zeros (Z.to_nat (n - k))).
      rewrite (strip_leading_zeros_fix _ _ d1_not_zero).
      change (d1 :: ds ++ zeros (Z.to_nat (n - k)))
        with ((d1 :: ds) ++ zeros (Z.to_nat (n - k))).
      now rewrite strip_trailing_zeros_zeros.
  - apply Forall_app. split; [exact Hdigits | apply zeros_digits].
  - cbn [app]. destruct (ds ++ zeros (Z.to_nat (n - k))); [exact I|].
    exact d1_not_zero.
  - apply ends_number_digit, Hrest.
Qed.

Lemma printed_fraction :
  (0 < n)%Z -> (n < k)%Z ->
  parse_unsigned neg
    ((firstn (Z.to_nat n) (d1 :: ds) ++ "."%char :: skipn (Z.to_nat n) (d1 :: ds))
     ++ rest)
  = Some (x, rest).
Proof.
  intros Hn Hk. unfold parse_unsigned. subst k.
  assert (Hlen : (0 < Z.to_nat n < List.length (d1 :: ds))%nat) by lia.
  rewrite <- app_assoc. cbn [app].
  rewrite parse_int_app.
  - cbn [parse_frac]. cbn -[parse_digits skipn firstn parse_exp make_number].
    rewrite parse_digits_app.
    + rewrite parse_exp_none by exact Hrest. do 2 f_equal.
      rewrite (make_number_digits neg _ _ (d1 :: ds) 0 d1 ds eq_refl);
        rewrite firstn_skipn, Hlead; [|exact Htrail].
      unfold x. f_equal. rewrite length_firstn. lia.
    + intros E. apply (f_equal (@List.length ascii)) in E.
      rewrite length_skipn in E. cbn [List.length] in E, Hlen. lia.
    + rewrite <- (firstn_skipn (Z.to_nat n) (d1 :: ds)) in Hdigits.
      now apply Forall_app in Hdigits.
    + apply ends_number_digit, Hrest.
  - rewrite <- (firstn_skipn (Z.to_nat n) (d1 :: ds)) in Hdigits.
    now apply Forall_app in Hdigits.
  - destruct (Z.to_nat n) as [|m] eqn:Em; [lia|]. cbn [firstn].
    destruct (firstn m ds); [exact I | exact d1_not_zero].
  - reflexivity.
Qed.

Lemma printed_small :
  (n <= 0)%Z ->
  parse_unsigned neg
    (("0"%char :: "."%char :: zeros (Z.to_nat (- n)) ++ d1 :: ds) ++ rest)
  = Some (x, rest).
Proof.
  intros Hn. unfold parse_unsigned.
  change (("0"%char :: "."%char :: zeros (Z.to_nat (- n)) ++ d1 :: ds) ++ rest)
    with (["0"%char] ++ "."%char :: (zeros (Z.to_nat (- n)) ++ d1 :: ds) ++ rest).
  rewrite parse_int_app; [|repeat constructor|exact I|reflexivity].
  cbn [parse_frac]. cbn -[parse_digits parse_exp make_number zeros app].
  rewrite parse_digits_app.
  - rewrite parse_exp_none by exact Hrest. do 2 f_equal.
    rewrite (make_number_digits neg _ _ (d1 :: ds) 0 d1 ds eq_refl).
    + unfold x. f_equal.
      change (["0"%char] ++ zeros (Z.to_nat (- n)) ++ d1 :: ds)
        with (zeros (S (Z.to_nat (- n))) ++ d1 :: ds).
      rewrite strip_leading_zeros_zeros, Hlead.
      rewrite length_app, length_zeros. cbn [List.length]. lia.
    + change (["0"%char] ++ zeros (Z.to_nat (- n)) ++ d1 :: ds)
        with (zeros (S (Z.to_nat (- n))) ++ d1 :: ds).
      now rewrite strip_leading_zeros_zeros, Hlead.
  - destruct (zeros (Z.to_nat (- n))); discriminate.
  - apply Forall_app. split; [apply zeros_digits | exact Hdigits].
  - apply ends_number_digit, Hrest.
Qed.

End PrintedNumber.

Lemma printed_exponent (neg : bool) (d1 : ascii) (ds rest : chars) (n : Z) :
  Forall (fun c => is_digit c = true) (d1 :: ds) ->
  strip_leading_zeros (d1 :: ds) = d1 :: ds ->
  strip_trailing_zeros (d1 :: ds) = d1 :: ds ->
  ends_number rest ->
  parse_unsigned neg
    ((d1 :: match ds with [] => [] | _ :: _ => "."%char :: ds end ++
      "e"%char :: (if (0 <=? n - 1)%Z then "+"%char else "-"%char) ::
      lit (digits_of_N (Z.abs_N (n - 1)))) ++ rest)
  = Some ({| negative := neg; digits := d1 :: ds; point := n |}, rest).
Proof.
  intros Hdigits Hlead Htrail Hrest. unfold parse_unsigned.
  pose proof (parse_exp_print (n - 1) rest Hrest) as He.
  pose proof (strip_leading_zeros_head _ _ Hlead) as Hnz.
  inversion Hdigits as [|? ? Hd1 Hds]; subst.
  destruct ds as [|d2 ds'].
  - cbn [app].
    change (d1 :: "e"%char :: ?t) with ([d1] ++ "e"%char :: t).
    rewrite parse_int_app; [|repeat constructor; assumption|exact I|reflexivity].
    cbn [parse_frac]. cbn -[parse_exp make_number lit digits_of_N].
    rewrite He. do 2 f_equal.
    rewrite (make_number_digits neg _ _ [d1] (n - 1) d1 [] eq_refl).
    + f_equal. cbn [app].
      rewrite (strip_leading_zeros_fix _ _ Hnz). cbn [List.length]. lia.
    + cbn [app]. rewrite (strip_leading_zeros_fix _ _ Hnz). exact Htrail.
  - cbn [app]. rewrite <- ?app_assoc. cbn [app].
    change (d1 :: "."%char :: ?t) with ([d1] ++ "."%char :: t).
    rewrite parse_int_app; [|repeat constructor; assumption|exact I|reflexivity].
    cbn [parse_frac]. cbn -[parse_digits parse_exp make_number lit digits_of_N app].
    change (d2 :: ds' ++ ?t) with ((d2 :: ds') ++ t).
    rewrite parse_digits_app; [|discriminate|exact Hds|reflexivity].
    rewrite He. do 2 f_equal.
    rewrite (make_number_digits neg _ _ (d1 :: d2 :: ds') (n - 1) d1 (d2 :: ds')
               eq_refl).
    + f_equal. cbn [app]. rewrite Hlead. cbn [List.length]. lia.
    + cbn [app]. now rewrite Hlead.
Qed.

Lemma parse_number_print (x : number) (rest : chars) :
  number_ok x -> ends_number rest ->
  parse_number (NumberToString x ++ rest) = Some (x, rest).
Proof.
  intros (Hd & Hl & Ht & Hz) Hrest. unfold NumberToString.
  destruct x as [neg dgs n]. cbn [digits negative point] in *.
  destruct dgs as [|d1 ds].
  - rewrite (Hz eq_refl). cbn [app lit list_ascii_of_string].
    unfold parse_number. cbn -[parse_unsigned].
    unfold parse_unsigned.
    change ("0"%char :: rest) with (["0"%char] ++ rest).
    rewrite parse_int_app;
      [|repeat constructor|exact I|apply ends_number_digit, Hrest].
    rewrite parse_frac_none, parse_exp_none by exact Hrest. reflexivity.
  - assert (Hbody : forall body,
               parse_unsigned neg (body ++ rest)
               = Some ({| negative := neg; digits := d1 :: ds; point := n |}, rest) ->
               (exists c t, body = c :: t /\ is_digit c = true) ->
               parse_number (((if neg then ["-"%char] else []) ++ body) ++ rest)
               = Some ({| negative := neg; digits := d1 :: ds; point := n |}, rest)).
    { intros body Hp (c & t & -> & Hc). destruct neg; cbn [app].
      - unfold parse_number. cbn -[parse_unsigned]. exact Hp.
      - unfold parse_number.
        destruct (N.eqb_spec (N_of_ascii c) 45) as [E|_]; [|exact Hp].
        unfold is_digit in Hc. rewrite E in Hc. discriminate Hc. }
    inversion Hd as [|? ? Hd1 Hds]; subst.
    destruct ((Z.of_nat (List.length (d1 :: ds)) <=? n)%Z && (n <=? 21)%Z) eqn:C1.
    { apply andb_true_iff in C1. destruct C1 as [C1 _]. apply Z.leb_le in C1.
      apply Hbody; [now apply printed_integer | cbn [app]; eauto]. }
    destruct ((0 <? n)%Z && (n <=? 21)%Z) eqn:C2.
    { apply andb_true_iff in C2. destruct C2 as [C2 C2']. apply Z.ltb_lt in C2.
      rewrite C2' in C1. rewrite andb_true_r in C1. apply Z.leb_gt in C1.
      apply Hbody; [now apply printed_fraction|].
      destruct (Z.to_nat n) eqn:E; [lia|]. cbn [firstn app]. eauto. }
    destruct ((-6 <? n)%Z && (n <=? 0)%Z) eqn:C3.
    { apply andb_true_iff in C3. destruct C3 as [_ C3]. apply Z.leb_le in C3.
      apply Hbody; [now apply printed_small | eauto]. }
    apply Hbody; [now apply printed_exponent | eauto].
Qed.

Lemma NumberToString_head (x : number) :
  number_ok x ->
  exists c tl, NumberToString x = c :: tl /\
               (c = "-"%char \/ is_digit c = true).
Proof.
  intros (Hd & _). unfold NumberToString.
  destruct (digits x) as [|d1 ds] eqn:E; [cbn; eauto|].
  destruct (negative x); cbn [app]; [eauto|].
  inversion Hd as [|? ? Hd1 Hds]; subst.
  destruct ((Z.of_nat (List.length (d1 :: ds)) <=? point x)%Z
            && (point x <=? 21)%Z); [cbn [app]; eauto|].
  destruct ((0 <? point x)%Z && (point x <=? 21)%Z) eqn:C2.
  { apply andb_true_iff in C2. destruct C2 as [C2 _]. apply Z.ltb_lt in C2.
    destruct (Z.to_nat (point x)) eqn:En; [lia|]. cbn [firstn app]. eauto. }
  destruct ((-6 <? point x)%Z && (point x <=? 0)%Z); eexists _, _;
    (split; [reflexivity | right; first [reflexivity | assumption]]).
Qed.

Lemma NumberToString_nonempty (x : number) : NumberToString x <> [].
Proof.
  unfold NumberToString. destruct (digits x) as [|d1 ds]; [discriminate|].
  destruct (negative x); [discriminate|]. cbn [app].
  destruct ((Z.of_nat (List.length (d1 :: ds)) <=? point x)%Z
            && (point x <=? 21)%Z); [discriminate|].
  destruct ((0 <? point x)%Z && (point x <=? 21)%Z).
  - destruct (firstn _ _); discriminate.
  - destruct ((-6 <? point x)%Z && (point x <=? 0)%Z); discriminate.
Qed.

(** ** What [JSON.parse] returns is canonical *)

Ltac break_hyp H :=
  repeat match type of H with
         | match ?x with _ => _ end = _ => destruct x eqn:?; try discriminate H
         | (if ?x then _ else _) = _ => destruct x eqn:?; try discriminate H
         | (let (_, _) := ?x in _) = _ => destruct x eqn:?; try discriminate H
         end.

Lemma parse_canon (fuel : nat) :
  (forall cs v r, parse_value fuel cs = Some (v, r) -> canon v) /\
  (forall cs acc v r,
      Forall canon acc -> parse_elements fuel cs acc = Some (v, r) -> canon v) /\
  (forall cs acc v r,
      canon (VObj acc) -> parse_members fuel cs acc = Some (v, r) -> canon v).
Proof.
  induction fuel as [|f (IHv & IHe & IHm)].
  - repeat split; intros; discriminate.
  - repeat split.
    + intros cs v r H. cbn [parse_value] in H. break_hyp H;
        try (injection H as <- <-; cbn; now auto);
        try (injection H as <- <-; eapply parse_number_ok; eassumption).
      * eapply IHe; [constructor | exact H].
      * eapply IHm; [|exact H]. cbn; auto.
    + intros cs acc v r Hacc H. cbn [parse_elements] in H. break_hyp H.
      * eapply IHe; [|exact H]. constructor; [eapply IHv; eassumption | exact Hacc].
      * injection H as <- <-. apply canon_arr.
        change (Forall canon (List.rev (j :: acc))). apply Forall_rev.
        constructor; [eapply IHv; eassumption | exact Hacc].
    + intros cs acc v r Hacc H. cbn [parse_members] in H. break_hyp H.
      * eapply IHm; [|exact H]. apply canon_obj_set; [eapply IHv; eassumption | exact Hacc].
      * injection H as <- <-.
        apply canon_obj_set; [eapply IHv; eassumption | exact Hacc].
Qed.

Lemma JSON_parse_canon (text : string) (v : jsval) :
  JSON_parse text = Ok v -> canon v.
Proof.
  unfold JSON_parse. intros H. break_hyp H. injection H as <-.
  eapply (proj1 (parse_canon _)); eassumption.
Qed.

(** ** Reading back what [JSON.stringify] printed *)

Lemma parse_string_escape (s : string) (rest : chars) :
  parse_string (escape s ++ dquote :: rest) = Some (s, rest).
Proof.
  induction s as [|c s IH]; [reflexivity|].
  cbn [escape]. rewrite <- app_assoc.
  destruct c as [[] [] [] [] [] [] [] []];
    cbn -[dquote escape]; rewrite IH; reflexivity.
Qed.

Lemma skip_ws_indent (n : nat) (cs : chars) :
  skip_ws (indent n ++ cs) = skip_ws cs.
Proof. induction n; cbn; auto. Qed.

Lemma skip_ws_nl_indent (n : nat) (cs : chars) :
  skip_ws (nl :: indent n ++ cs) = skip_ws cs.
Proof. cbn. apply skip_ws_indent. Qed.

Lemma serialize_arr (ind : nat) (x : jsval) (xs : list jsval) :
  serialize ind (VArr (x :: xs)) =
  "["%char :: nl :: indent (2 + ind) ++ serialize (2 + ind) x ++
  elements_tail (2 + ind) xs ++ nl :: indent ind ++ lit "]".
Proof.
  reflexivity.
Qed.

Lemma serialize_obj (ind : nat) (k : string) (x : jsval) (xs : obj) :
  serialize ind (VObj ((k, x) :: xs)) =
  "{"%char :: nl :: indent (2 + ind) ++
  QuoteJSONString k ++ lit ": " ++ serialize (2 + ind) x ++
  members_tail (2 + ind) xs ++ nl :: indent ind ++ lit "}".
Proof.
  reflexivity.
Qed.

Lemma size_arr (l : list jsval) : size (VArr l) = S (size_elements l).
Proof. reflexivity. Qed.

Lemma size_obj (o : obj) : size (VObj o) = S (size_members o).
Proof. reflexivity. Qed.

Lemma size_pos (v : jsval) : 1 <= size v.
Proof. destruct v; cbn; lia. Qed.

Lemma parse_value_nl_indent (fuel n : nat) (cs : chars) :
  parse_value fuel (nl :: indent n ++ cs) = parse_value fuel cs.
Proof.
  destruct fuel; [reflexivity|]. cbn [parse_value].
  now rewrite skip_ws_nl_indent.
Qed.

Lemma parse_value_space (fuel : nat) (cs : chars) :
  parse_value fuel (" "%char :: cs) = parse_value fuel cs.
Proof. destruct fuel; reflexivity. Qed.

Lemma parse_value_number (f : nat) (x : number) (rest : chars) :
  number_ok x -> ends_number rest ->
  parse_value (S f) (NumberToString x ++ rest) = Some (VNum x, rest).
Proof.
  intros Hx Hrest.
  destruct (NumberToString_head x Hx) as (c & tl & E & Hc).
  pose proof (parse_number_print x rest Hx Hrest) as Hp.
  rewrite E in Hp |- *. cbn [app] in Hp |- *.
  destruct c as [[] [] [] [] [] [] [] []];
    try (exfalso; destruct Hc as [Hc|Hc]; discriminate Hc);
    cbn -[parse_number]; rewrite Hp; reflexivity.
Qed.

(** The first character of a printed value is neither white space nor a
    closing bracket. *)
Lemma serialize_head (ind : nat) (v : jsval) :
  canon v ->
  exists c tl, serialize ind v = c :: tl /\ is_ws c = false /\
               (N_of_ascii c =? 93)%N = false /\ (N_of_ascii c =? 125)%N = false.
Proof.
  intros Hv.
  destruct v as [|[]|z|s|[|x xs]|[|[k x] xs]];
    try (eexists _, _; split; [reflexivity | repeat split; reflexivity]).
  destruct (NumberToString_head z Hv) as (c & tl & E & Hc).
  exists c, tl. split; [exact E|].
  destruct c as [[] [] [] [] [] [] [] []];
    try (exfalso; destruct Hc as [Hc|Hc]; discriminate Hc);
    repeat split; reflexivity.
Qed.

Lemma serialize_nonempty (ind : nat) (v : jsval) : serialize ind v <> [].
Proof.
  destruct v as [|[]|z|s|[|x xs]|[|[k x] xs]]; try discriminate.
  apply NumberToString_nonempty.
Qed.

Lemma skip_ws_serialize (ind : nat) (v : jsval) (rest : chars) :
  canon v ->
  skip_ws (serialize ind v ++ rest) = serialize ind v ++ rest.
Proof.
  intros Hv. destruct (serialize_head ind v Hv) as (c & tl & E & Hws & _).
  rewrite E. cbn [app skip_ws]. now rewrite Hws.
Qed.

Lemma parse_elements_tail (ind ind0 : nat) (rest : chars) (xs : list jsval) :
  Forall reads_back xs -> Forall canon xs ->
  forall (x : jsval) (acc : list jsval) (fuel : nat),
    reads_back x -> canon x ->
    size_elements (x :: xs) <= fuel ->
    parse_elements fuel
      (nl :: indent ind ++ serialize ind x ++ elements_tail ind xs ++
       nl :: indent ind0 ++ "]"%char :: rest) acc
    = Some (VArr (List.rev acc ++ x :: xs), rest).
Proof.
  intros Hxs Hcs. revert Hcs.
  induction Hxs as [|y ys Hy Hys IH]; intros Hcs x acc fuel Hx Hcx Hfuel.
  - destruct fuel as [|f]; [cbn in Hfuel; lia|].
    cbn [parse_elements]. rewrite parse_value_nl_indent.
    cbn [elements_tail app].
    rewrite (Hx Hcx ind _ f) by (cbn in Hfuel |- *; (lia || (repeat split; reflexivity))).
    rewrite skip_ws_nl_indent. cbn. reflexivity.
  - destruct fuel as [|f]; [cbn in Hfuel; lia|].
    cbn [parse_elements]. rewrite parse_value_nl_indent.
    cbn [elements_tail].
    rewrite (Hx Hcx ind _ f) by (cbn in Hfuel |- *; (lia || (repeat split; reflexivity))).
    cbn [app skip_ws is_ws]. cbn -[parse_elements nl indent serialize elements_tail lit app].
    inversion Hcs; subst. rewrite <- ?app_assoc.
    rewrite IH; [|assumption..|cbn in Hfuel |- *; lia].
    cbn [List.rev]. rewrite <- app_assoc. reflexivity.
Qed.

Lemma obj_insert_index_last (i : N) (k : string) (v : jsval) (p : obj) :
  (forall k', In k' (map fst p) ->
     exists j, array_index k' = Some j /\ (j < i)%N) ->
  obj_insert_index i k v p = p ++ [(k, v)].
Proof.
  induction p as [|[k' v'] t IH]; cbn; intros H; [reflexivity|].
  destruct (H k' (or_introl eq_refl)) as (j & -> & Hj).
  destruct (N.ltb_spec j i); [|lia].
  rewrite IH; auto.
Qed.

Lemma keys_ok_app_last (ks : list string) (k : string) (more : list string) :
  keys_ok (ks ++ k :: more) ->
  ~ In k ks /\ forall k', In k' ks -> key_before k' k.
Proof.
  induction ks as [|k0 t IH]; cbn.
  - intros _. split; [tauto | intros ? []].
  - intros (Hn & Hok & Hb). destruct (IH Hok) as [Hnin Hbefore]. split.
    + intros [->|H]; [|tauto]. apply Hn. apply in_or_app. right. now left.
    + intros k' [<-|H]; [|auto]. apply Hb. apply in_or_app. right. now left.
Qed.

Lemma obj_set_next (p : obj) (k : string) (v : jsval) (more : list string) :
  keys_ok (map fst p ++ k :: more) ->
  obj_set k v p = p ++ [(k, v)].
Proof.
  intros Hok. apply keys_ok_app_last in Hok. destruct Hok as [Hnin Hbefore].
  unfold obj_set. apply has_key_false in Hnin. rewrite Hnin.
  destruct (array_index k) as [i|] eqn:Hi; [|reflexivity].
  apply obj_insert_index_last. intros k' Hk'.
  specialize (Hbefore k' Hk'). unfold key_before in Hbefore. rewrite Hi in Hbefore.
  destruct (array_index k') as [j|]; [eauto | contradiction].
Qed.

Lemma obj_assign_next (s p : obj) :
  keys_ok (map fst (p ++ s)) -> obj_assign p s = p ++ s.
Proof.
  revert p. induction s as [|[k v] s IH]; intros p Hok; cbn.
  - now rewrite app_nil_r.
  - unfold obj_assign in *. cbn [fold_left fst snd].
    rewrite map_app in Hok. cbn [map fst] in Hok.
    rewrite (obj_set_next p k v (map fst s)) by exact Hok.
    rewrite IH.
    + now rewrite <- app_assoc.
    + rewrite <- app_assoc. cbn. now rewrite map_app.
Qed.

Lemma obj_assign_canon (o : obj) :
  keys_ok (map fst o) -> obj_assign [] o = o.
Proof. intros H. now apply (obj_assign_next o []). Qed.

Lemma parse_members_tail (ind ind0 : nat) (rest : chars) (xs : obj) :
  Forall (fun kv => reads_back (snd kv)) xs ->
  Forall (fun kv => canon (snd kv)) xs ->
  forall (k : string) (x : jsval) (acc : obj) (fuel : nat),
    reads_back x -> canon x ->
    size_members ((k, x) :: xs) <= fuel ->
    parse_members fuel
      (nl :: indent ind ++ QuoteJSONString k ++ lit ": " ++ serialize ind x ++
       members_tail ind xs ++ nl :: indent ind0 ++ "}"%char :: rest) acc
    = Some (VObj (obj_assign acc ((k, x) :: xs)), rest).
Proof.
  intros Hxs Hcs. revert Hcs.
  induction Hxs as [|[k' y] ys Hy Hys IH]; intros Hcs k x acc fuel Hx Hcx Hfuel.
  - destruct fuel as [|f]; [cbn in Hfuel; lia|].
    cbn [parse_members]. rewrite skip_ws_nl_indent.
    unfold QuoteJSONString. cbn [app skip_ws]. rewrite <- ?app_assoc.
    cbn -[parse_string parse_value escape serialize indent nl lit app].
    cbn [app]. rewrite parse_string_escape.
    cbn -[parse_value serialize indent nl app]. cbn [app].
    cbn -[parse_value serialize indent nl app].
    rewrite parse_value_space.
    rewrite (Hx Hcx ind _ f) by (cbn in Hfuel |- *; (lia || (repeat split; reflexivity))).
    rewrite skip_ws_nl_indent. cbn. reflexivity.
  - destruct fuel as [|f]; [cbn in Hfuel; lia|].
    cbn [parse_members]. rewrite skip_ws_nl_indent.
    unfold QuoteJSONString at 1. cbn [app skip_ws]. rewrite <- ?app_assoc.
    cbn -[parse_string parse_value parse_members escape serialize indent nl lit
          app members_tail QuoteJSONString].
    cbn [app]. rewrite parse_string_escape.
    cbn -[parse_value parse_members serialize indent nl app members_tail
          QuoteJSONString]. cbn [app].
    cbn -[parse_value parse_members serialize indent nl app members_tail
          QuoteJSONString].
    rewrite parse_value_space.
    cbn [members_tail].
    rewrite (Hx Hcx ind _ f) by (cbn in Hfuel |- *; (lia || (repeat split; reflexivity))).
    cbn -[parse_members nl indent serialize members_tail lit app QuoteJSONString].
    cbn [app skip_ws].
    cbn -[parse_members nl indent serialize members_tail lit app QuoteJSONString].
    inversion Hcs; subst. rewrite <- ?app_assoc.
    rewrite IH; [|assumption..|cbn in Hfuel |- *; lia].
    reflexivity.
Qed.

Lemma parse_serialize (v : jsval) : reads_back v.
Proof.
  induction v as [|b|z|s|l IH|o IH] using jsval_ind;
    intros Hc ind rest fuel Hfuel Hrest;
    (destruct fuel as [|f]; [cbn in Hfuel; lia|]).
  - reflexivity.
  - destruct b; reflexivity.
  - apply parse_value_number; assumption.
  - unfold serialize, QuoteJSONString. cbn [app]. rewrite <- app_assoc.
    cbn -[parse_string escape]. cbn [app].
    change (ascii_of_N 34) with dquote.
    now rewrite parse_string_escape.
  - destruct l as [|x xs]; [reflexivity|].
    rewrite serialize_arr. apply canon_arr in Hc.
    inversion IH; subst. inversion Hc; subst.
    destruct (serialize_head (2 + ind) x H3) as (c & tl & E & Hws & H93 & _).
    cbn [app parse_value skip_ws]. 
    cbn -[parse_elements nl indent serialize elements_tail lit app skip_ws].
    rewrite <- ?app_assoc. rewrite skip_ws_nl_indent.
    rewrite E at 1. cbn [app skip_ws]. rewrite Hws, H93.
    rewrite size_arr in Hfuel.
    rewrite <- ?app_assoc. change (lit "]" ++ rest) with ("]"%char :: rest).
    rewrite parse_elements_tail; try assumption; [reflexivity | lia].
  - destruct o as [|[k x] xs]; [reflexivity|].
    rewrite serialize_obj. apply canon_obj in Hc. destruct Hc as [Hk Hc].
    inversion IH; subst. inversion Hc; subst.
    cbn [app parse_value skip_ws].
    cbn -[parse_members nl indent serialize members_tail lit app skip_ws
          QuoteJSONString].
    rewrite <- ?app_assoc. rewrite skip_ws_nl_indent.
    unfold QuoteJSONString at 1. cbn [app skip_ws].
    cbn -[parse_members nl indent serialize members_tail lit app QuoteJSONString
          escape].
    change (ascii_of_N 34 :: escape k ++ [ascii_of_N 34]) with (QuoteJSONString k).
    rewrite size_obj in Hfuel.
    rewrite <- ?app_assoc. change (lit "}" ++ rest) with ("}"%char :: rest).
    rewrite parse_members_tail; try assumption; [|lia].
    now rewrite obj_assign_canon.
Qed.

Lemma size_elements_tail (ind : nat) (xs : list jsval) :
  Forall (fun v => forall ind, size v <= List.length (serialize ind v)) xs ->
  size_elements xs <= List.length (elements_tail ind xs).
Proof.
  induction 1 as [|y ys Hy _ IH]; cbn [size_elements elements_tail List.length].
  - lia.
  - rewrite !length_app. specialize (Hy ind). lia.
Qed.

Lemma size_members_tail (ind : nat) (xs : obj) :
  Forall (fun kv => forall ind, size (snd kv) <= List.length (serialize ind (snd kv))) xs ->
  size_members xs <= List.length (members_tail ind xs).
Proof.
  induction 1 as [|[k y] ys Hy _ IH]; cbn [size_members members_tail List.length].
  - lia.
  - rewrite !length_app. specialize (Hy ind). cbn [snd] in Hy. lia.
Qed.

Lemma size_le_length (v : jsval) :
  forall ind, size v <= List.length (serialize ind v).
Proof.
  induction v as [|b|z|s|l IH|o IH] using jsval_ind; intros ind.
  - cbn. lia.
  - destruct b; cbn; lia.
  - pose proof (NumberToString_nonempty z) as Hne. cbn [serialize size].
    destruct (NumberToString z); [congruence | cbn; lia].
  - cbn. lia.
  - destruct l as [|x xs]; [cbn; lia|].
    rewrite serialize_arr, size_arr. inversion IH; subst.
    cbn [size_elements List.length]. rewrite !length_app.
    pose proof (size_elements_tail (2 + ind) xs H2). specialize (H1 (2 + ind)).
    cbn [List.length]. lia.
  - destruct o as [|[k x] xs]; [cbn; lia|].
    rewrite serialize_obj, size_obj. inversion IH; subst.
    cbn [size_members List.length]. rewrite !length_app.
    pose proof (size_members_tail (2 + ind) xs H2). specialize (H1 (2 + ind)).
    cbn [List.length snd] in *. lia.
Qed.

(** What [JSON.stringify] prints of a canonical value, [JSON.parse] reads
    back as that value. *)
Lemma JSON_parse_stringify (v : jsval) :
  canon v -> JSON_parse (JSON_stringify v) = Ok v.
Proof.
  intros Hc. unfold JSON_parse, JSON_stringify.
  rewrite list_ascii_of_string_of_list_ascii.
  pose proof (parse_serialize v Hc 0 [] (S (List.length (serialize 0 v)))) as H.
  rewrite app_nil_r in H. rewrite H.
  - reflexivity.
  - pose proof (size_le_length v 0). lia.
  - exact I.
Qed.

Lemma JSON_stringify_nonempty (v : jsval) : JSON_stringify v <> EmptyString.
Proof.
  unfold JSON_stringify. pose proof (serialize_nonempty 0 v) as Hne.
  destruct (serialize 0 v); [congruence | discriminate].
Qed.

(** ** The three write strategies *)

Lemma isEditingObjectFields_one (r : row) :
  isEditingObjectFields [r] = key_truthy r.
Proof. unfold isEditingObjectFields. cbn. now rewrite orb_false_r. Qed.

(** The rename branch never renames: its test [typeof === "object"] is
    reached only when the merge was refused, so the value it takes for the
    parent object can only be [null], and its first write throws. *)
Lemma write_target_eq (rows : list row) (c : option jsval) (k : string)
    (nv : jsval) :
  write_target rows c k nv =
  (target <- js_get c k ;;
   if isEditingObjectFields rows && is_plain_object target
      && is_plain_object (Some nv)
   then js_set c k (spread target (Some nv))
   else if rename_attempt rows nv && is_null target then Throw TypeError
   else js_set c k nv)%result.
Proof.
  unfold write_target, rename_attempt.
  destruct (js_get c k) as [target|e] eqn:Hget; cbn [rbind]; [|reflexivity].
  destruct (isEditingObjectFields rows && is_plain_object target
            && is_plain_object (Some nv)) eqn:Hmerge; [reflexivity|].
  destruct rows as [|r [|r' rows]]; try reflexivity.
  destruct (own_entries (Some nv)) as [|[newKey newVal] [|e2 es]]; try reflexivity.
  rewrite isEditingObjectFields_one in Hmerge.
  destruct (key_truthy r && is_plain_object (Some nv)) eqn:Hren; [|reflexivity].
  apply andb_true_iff in Hren. destruct Hren as [Hr Hnv].
  rewrite Hr, Hnv, andb_true_r in Hmerge. cbn [andb] in Hmerge.
  cbn [rbind andb].
  destruct target as [[| | | | |]|]; try discriminate Hmerge; try reflexivity.
Qed.

(** ** The handler keeps values canonical *)

Lemma canon_assign (s t : obj) :
  canon (VObj t) -> Forall (fun kv => canon (snd kv)) s ->
  canon (VObj (obj_assign t s)).
Proof.
  revert t. induction s as [|[k v] s IH]; intros t Ht Hs; [exact Ht|].
  inversion Hs; subst. unfold obj_assign in *. cbn [fold_left fst snd].
  apply IH; [apply canon_obj_set|]; assumption.
Qed.

Lemma Forall_combine_snd {A} (Q : jsval -> Prop) (ks : list A) (l : list jsval) :
  Forall Q l -> Forall (fun kv => Q (snd kv)) (combine ks l).
Proof.
  intros H. revert ks. induction H as [|x t Hx _ IH]; intros [|k ks]; cbn;
    constructor; auto.
Qed.

Lemma own_entries_canon (a : option jsval) :
  (forall v, a = Some v -> canon v) ->
  Forall (fun kv => canon (snd kv)) (own_entries a).
Proof.
  intros H. destruct a as [[| | | s | l | o]|]; cbn; try constructor.
  - apply Forall_combine_snd, Forall_forall. intros x Hx.
    apply in_map_iff in Hx. destruct Hx as (c & <- & _). exact I.
  - apply Forall_combine_snd, canon_arr, H. reflexivity.
  - apply canon_obj, H. reflexivity.
Qed.

Lemma canon_spread (a b : option jsval) :
  (forall v, a = Some v -> canon v) ->
  (forall v, b = Some v -> canon v) ->
  canon (spread a b).
Proof.
  intros Ha Hb. unfold spread, spread2.
  apply canon_assign; [apply canon_assign|]; auto using own_entries_canon.
  cbn. auto.
Qed.

Lemma Forall_arr_set (Q : jsval -> Prop) (i : nat) (v : jsval) (l : list jsval) :
  Q VNull -> Q v -> Forall Q l -> Forall Q (arr_set i v l).
Proof.
  intros Hn Hv. revert l. induction i as [|i IH]; intros l Hl.
  - destruct l; cbn; inversion Hl; subst; constructor; auto.
  - destruct l as [|x t]; cbn.
    + constructor; [exact Hn | apply IH; constructor].
    + inversion Hl; subst. constructor; auto.
Qed.

Lemma canon_js_set (c : option jsval) (k : string) (v c' : jsval) :
  (forall x, c = Some x -> canon x) -> canon v ->
  js_set c k v = Ok c' -> canon c'.
Proof.
  intros Hc Hv H. destruct c as [[| | | | l | o]|]; try discriminate H; cbn in H.
  - specialize (Hc _ eq_refl). apply canon_arr in Hc.
    destruct (array_index k); injection H as <-; apply canon_arr; [|exact Hc].
    apply Forall_arr_set; [exact I | exact Hv | exact Hc].
  - injection H as <-. apply canon_obj_set; auto.
Qed.

Lemma canon_js_get (c : option jsval) (k : string) (t : option jsval) :
  (forall x, c = Some x -> canon x) ->
  js_get c k = Ok t -> forall x, t = Some x -> canon x.
Proof.
  intros Hc H x Hx. subst t.
  destruct c as [[| | | s | l | o]|]; try discriminate H; cbn in H.
  - destruct (array_index k); [|discriminate H].
    destruct (String.get _ s); inversion H; subst. exact I.
  - specialize (Hc _ eq_refl). apply canon_arr in Hc.
    destruct (array_index k) as [i|]; [|discriminate H]. injection H as H.
    rewrite Forall_forall in Hc. apply Hc. eapply nth_error_In, H.
  - specialize (Hc _ eq_refl). apply canon_obj in Hc. destruct Hc as [_ Hc].
    injection H as H. induction o as [|[k' v'] t IH]; [discriminate H|].
    cbn in H. inversion Hc; subst.
    destruct (String.eqb k k'); [injection H as <-; assumption | auto].
Qed.

Lemma canon_walk (p : list seg) (c t : option jsval) :
  (forall x, c = Some x -> canon x) ->
  walk c p = Ok t -> forall x, t = Some x -> canon x.
Proof.
  revert c. induction p as [|s p IH]; intros c Hc H; cbn in H.
  - injection H as <-. exact Hc.
  - destruct (js_get c (ToPropertyKey s)) as [c1|] eqn:Hg; [|discriminate H].
    cbn in H. eapply IH; [|exact H]. eapply canon_js_get; eassumption.
Qed.

Lemma canon_write_target (rows : list row) (c : option jsval) (k : string)
    (nv p : jsval) :
  (forall x, c = Some x -> canon x) -> canon nv ->
  write_target rows c k nv = Ok p -> canon p.
Proof.
  intros Hc Hnv. rewrite write_target_eq.
  destruct (js_get c k) as [target|] eqn:Hg; [|discriminate]. cbn [rbind].
  destruct (isEditingObjectFields rows && is_plain_object target
            && is_plain_object (Some nv)).
  - apply canon_js_set; [exact Hc|]. apply canon_spread.
    + eapply canon_js_get; eassumption.
    + now intros ? [= <-].
  - destruct (rename_attempt rows nv && is_null target); [discriminate|].
    apply canon_js_set; assumption.
Qed.

Lemma canon_put_child (v : jsval) (k : string) (child : jsval) :
  canon v -> canon child -> canon (put_child v k child).
Proof.
  intros Hv Hc. destruct v as [| | | | l | o]; cbn [put_child]; try exact Hv.
  - destruct (array_index k) as [i|]; [|exact Hv].
    destruct (N.to_nat i <? List.length l)%nat; [|exact Hv].
    apply canon_arr. apply canon_arr in Hv.
    apply Forall_arr_set; [exact I | exact Hc | exact Hv].
  - apply canon_obj in Hv. destruct Hv as [Hk Ho]. apply canon_obj. split.
    + now rewrite keys_replace.
    + apply Forall_replace; assumption.
Qed.

Lemma canon_plug (p : list seg) (root parent : jsval) :
  canon root -> canon parent -> canon (plug root p parent).
Proof.
  revert root. induction p as [|s p IH]; intros root Hr Hp; cbn [plug].
  - exact Hp.
  - destruct (js_get (Some root) (ToPropertyKey s)) as [[child|]|] eqn:Hg;
      try exact Hr.
    apply canon_put_child; [exact Hr|]. apply IH; [|exact Hp].
    eapply canon_js_get; [|exact Hg|reflexivity]. now intros ? [= <-].
Qed.

Lemma read_root_canon (doc : string) (root : jsval) :
  read_root doc = Ok root -> canon root.
Proof.
  unfold read_root. destruct (negb (doc =? EmptyString)%string).
  - apply JSON_parse_canon.
  - intros [= <-]. cbn. auto.
Qed.

Lemma new_value_canon (nodeData : option NodeData) (text : string) (nv : jsval) :
  new_value nodeData text = Ok nv -> canon nv.
Proof.
  unfold new_value. destruct (JSON_parse text) as [v|e] eqn:Hp.
  - intros [= <-]. eapply JSON_parse_canon, Hp.
  - intros H. break_hyp H; injection H as <-; exact I.
Qed.

Lemma edit_root_canon (rows : list row) (root nv : jsval) :
  canon root -> canon nv -> canon (edit_root rows root nv).
Proof.
  intros Hr Hn. unfold edit_root.
  destruct (isEditingObjectFields rows && is_plain_object (Some nv)); [|exact Hn].
  destruct (is_plain_object (Some root)); [|exact Hn].
  apply canon_spread; now intros ? [= <-].
Qed.

Lemma edit_path_canon (rows : list row) (p : list seg) (root nv v : jsval) :
  canon root -> canon nv -> edit_path rows p root nv = Ok v -> canon v.
Proof.
  intros Hr Hn. unfold edit_path, traverseToParent.
  destruct (List.length p =? 0)%nat; cbn [rbind cursor lastKey]; [discriminate|].
  destruct (walk (Some root) (firstn (List.length p - 1) p)) as [c|] eqn:Hw;
    [|discriminate].
  cbn [rbind cursor lastKey parentPath].
  destruct c as [cur|]; [|discriminate].
  destruct (nth_error p (List.length p - 1)) as [last|]; [|discriminate].
  destruct (write_target rows (Some cur) (ToPropertyKey last) nv) as [p'|] eqn:Hwt;
    [|discriminate].
  cbn [rbind]. intros [= <-]. apply canon_plug; [exact Hr|].
  eapply canon_write_target; [|exact Hn|exact Hwt].
  eapply canon_walk; [|exact Hw]. now intros ? [= <-].
Qed.

Lemma edit_value_canon (nodeData : option NodeData) (doc text : string)
    (v : jsval) :
  edit_value nodeData doc text = Ok v -> canon v.
Proof.
  unfold edit_value.
  destruct (read_root doc) as [root|] eqn:Hr; [|discriminate].
  destruct (new_value nodeData text) as [nv|] eqn:Hn; [|discriminate].
  cbn [rbind].
  apply read_root_canon in Hr. apply new_value_canon in Hn.
  destruct (List.length (path_of nodeData) =? 0)%nat.
  - intros [= <-]. now apply edit_root_canon.
  - now apply edit_path_canon.
Qed.

(** ** Reading a property after a write *)

Lemma obj_lookup_replace_same (k : string) (v : jsval) (o : obj) :
  has_key k o = true -> obj_lookup k (obj_replace k v o) = Some v.
Proof.
  unfold has_key. induction o as [|[k' v'] t IH]; cbn; [discriminate|].
  destruct (String.eqb k k') eqn:E; cbn; rewrite E; auto.
Qed.

Lemma obj_lookup_replace_other (k k' : string) (v : jsval) (o : obj) :
  k <> k' -> obj_lookup k (obj_replace k' v o) = obj_lookup k o.
Proof.
  intros Hne. induction o as [|[k0 v0] t IH]; cbn; [reflexivity|].
  destruct (String.eqb_spec k' k0) as [->|]; cbn.
  - destruct (String.eqb_spec k k0); [congruence | reflexivity].
  - destruct (String.eqb k k0); auto.
Qed.

Lemma obj_lookup_insert_index (k : string) (i : N) (k' : string) (v : jsval)
    (o : obj) :
  has_key k' o = false ->
  obj_lookup k (obj_insert_index i k' v o) =
  if String.eqb k k' then Some v else obj_lookup k o.
Proof.
  unfold has_key. induction o as [|[k0 v0] t IH]; cbn; intros Hk.
  - destruct (String.eqb k k'); reflexivity.
  - destruct (String.eqb_spec k' k0) as [->|Hne]; [discriminate Hk|].
    destruct (array_index k0) as [j|]; [destruct (j <? i)%N|]; cbn;
      try reflexivity.
    rewrite IH by exact Hk.
    destruct (String.eqb_spec k k0) as [->|]; [|reflexivity].
    destruct (String.eqb_spec k0 k'); [congruence | reflexivity].
Qed.

Lemma obj_lookup_app (k : string) (o o' : obj) :
  obj_lookup k (o ++ o') =
  match obj_lookup k o with Some v => Some v | None => obj_lookup k o' end.
Proof.
  induction o as [|[k0 v0] t IH]; cbn; [reflexivity|].
  destruct (String.eqb k k0); auto.
Qed.

Lemma obj_lookup_set (k k' : string) (v : jsval) (o : obj) :
  obj_lookup k (obj_set k' v o) =
  if String.eqb k k' then Some v else obj_lookup k o.
Proof.
  unfold obj_set. destruct (has_key k' o) eqn:Hk.
  - destruct (String.eqb_spec k k') as [->|Hne].
    + now apply obj_lookup_replace_same.
    + now apply obj_lookup_replace_other.
  - destruct (array_index k') as [i|].
    + now apply obj_lookup_insert_index.
    + rewrite obj_lookup_app. cbn.
      destruct (String.eqb_spec k k') as [->|Hne].
      * unfold has_key in Hk. destruct (obj_lookup k' o); [discriminate|reflexivity].
      * destruct (obj_lookup k o); reflexivity.
Qed.

Lemma obj_replace_same (k : string) (v : jsval) (o : obj) :
  obj_lookup k o = Some v -> obj_replace k v o = o.
Proof.
  induction o as [|[k' v'] t IH]; cbn; [reflexivity|].
  destruct (String.eqb_spec k k') as [->|].
  - now intros [= ->].
  - intros H. now rewrite IH.
Qed.

Lemma obj_set_same (k : string) (v : jsval) (o : obj) :
  obj_lookup k o = Some v -> obj_set k v o = o.
Proof.
  intros H. unfold obj_set, has_key. rewrite H. now apply obj_replace_same.
Qed.

Lemma obj_lookup_assign_other (k : string) (s t : obj) :
  ~ In k (map fst s) -> obj_lookup k (obj_assign t s) = obj_lookup k t.
Proof.
  revert t. induction s as [|[k' v'] s IH]; intros t Hnin; [reflexivity|].
  unfold obj_assign in *. cbn [fold_left fst snd]. cbn in Hnin.
  rewrite IH by tauto. rewrite obj_lookup_set.
  destruct (String.eqb_spec k k'); [subst; tauto | reflexivity].
Qed.

(** The merge: the keys of the new object overwrite, the others stay. *)
Lemma obj_lookup_assign (k : string) (s t : obj) :
  NoDup (map fst s) ->
  obj_lookup k (obj_assign t s) =
  match obj_lookup k s with Some v => Some v | None => obj_lookup k t end.
Proof.
  revert t. induction s as [|[k' v'] s IH]; intros t Hnd; [reflexivity|].
  inversion Hnd; subst.
  change (obj_assign t ((k', v') :: s)) with (obj_assign (obj_set k' v' t) s).
  cbn [obj_lookup]. destruct (String.eqb_spec k k') as [->|Hne].
  - rewrite obj_lookup_assign_other by assumption.
    rewrite obj_lookup_set. now rewrite String.eqb_refl.
  - rewrite IH by assumption. rewrite obj_lookup_set.
    destruct (String.eqb_spec k k'); [congruence | reflexivity].
Qed.

Lemma keys_ok_NoDup (ks : list string) : keys_ok ks -> NoDup ks.
Proof.
  induction ks as [|k t IH]; cbn; [constructor|].
  intros (Hn & Hok & _). constructor; auto.
Qed.

Lemma obj_lookup_In (k : string) (v : jsval) (o : obj) :
  NoDup (map fst o) -> In (k, v) o -> obj_lookup k o = Some v.
Proof.
  induction o as [|[k' v'] t IH]; cbn; [tauto|].
  intros Hnd [[= -> ->]|Hin]; [now rewrite String.eqb_refl|].
  inversion Hnd; subst. destruct (String.eqb_spec k k') as [->|]; [|auto].
  exfalso. apply H1. apply in_map_iff. exists (k', v). auto.
Qed.

Lemma obj_assign_absorb (s t : obj) :
  (forall k v, In (k, v) s -> obj_lookup k t = Some v) ->
  obj_assign t s = t.
Proof.
  induction s as [|[k v] s IH]; intros H; [reflexivity|].
  change (obj_assign t ((k, v) :: s)) with (obj_assign (obj_set k v t) s).
  rewrite obj_set_same by (apply H; now left).
  apply IH. intros k' v' Hin. apply H. now right.
Qed.

(** Merging the same object a second time changes nothing. *)
Lemma obj_assign_twice (s t : obj) :
  NoDup (map fst s) -> obj_assign (obj_assign t s) s = obj_assign t s.
Proof.
  intros Hnd. apply obj_assign_absorb. intros k v Hin.
  rewrite obj_lookup_assign by assumption.
  now rewrite (obj_lookup_In k v s Hnd Hin).
Qed.

Lemma obj_assign_self (s : obj) :
  NoDup (map fst s) -> obj_assign s s = s.
Proof.
  intros Hnd. apply obj_assign_absorb. intros k v. now apply obj_lookup_In.
Qed.

Lemma spread_obj (a b : obj) :
  keys_ok (map fst a) ->
  spread (Some (VObj a)) (Some (VObj b)) = VObj (obj_assign a b).
Proof.
  intros Ha. unfold spread, spread2. cbn [own_entries].
  now rewrite obj_assign_canon.
Qed.

Lemma is_plain_object_inv (t : option jsval) :
  is_plain_object t = true -> exists o, t = Some (VObj o).
Proof.
  unfold is_plain_object.
  destruct t as [[|b|n|s|l|o]|]; cbn [typeof isArray truthy];
    rewrite ?andb_false_r; try discriminate; eauto.
  all: destruct (truthy _); discriminate.
Qed.

Lemma is_plain_object_obj (o : obj) : is_plain_object (Some (VObj o)) = true.
Proof. reflexivity. Qed.

Lemma nth_error_arr_set (i : nat) (v : jsval) (l : list jsval) :
  nth_error (arr_set i v l) i = Some v.
Proof.
  revert l. induction i as [|i IH]; intros [|x t]; cbn; auto.
Qed.

Lemma arr_set_twice (i : nat) (v : jsval) (l : list jsval) :
  arr_set i v (arr_set i v l) = arr_set i v l.
Proof.
  revert l. induction i as [|i IH]; intros [|x t]; cbn; try rewrite IH; auto.
Qed.

Lemma arr_set_put_twice (i : nat) (v w : jsval) (l : list jsval) :
  arr_set i w (arr_set i v l) = arr_set i w l.
Proof.
  revert l. induction i as [|i IH]; intros [|x t]; cbn; try rewrite IH; auto.
Qed.

Lemma length_arr_set (i : nat) (v : jsval) (l : list jsval) :
  (i < List.length l)%nat -> List.length (arr_set i v l) = List.length l.
Proof.
  revert l. induction i as [|i IH]; intros [|x t]; cbn; intros H; try lia.
  rewrite IH; lia.
Qed.

Lemma obj_set_twice (k : string) (v : jsval) (o : obj) :
  obj_set k v (obj_set k v o) = obj_set k v o.
Proof.
  apply obj_set_same. rewrite obj_lookup_set. now rewrite String.eqb_refl.
Qed.

(** After [c[k] = v] succeeded, writing [v] again changes nothing, and
    [c[k]] reads [v] wherever it read a value before or [c] is an object. *)
Lemma js_set_again (c c' : jsval) (k : string) (v : jsval) :
  js_set (Some c) k v = Ok c' -> js_set (Some c') k v = Ok c'.
Proof.
  destruct c as [| | | | l | o]; try discriminate; cbn [js_set].
  - destruct (array_index k) as [i|] eqn:Hi; intros [= <-]; cbn [js_set];
      rewrite ?Hi; now rewrite ?arr_set_twice.
  - intros [= <-]. cbn [js_set]. now rewrite obj_set_twice.
Qed.

Lemma js_get_after_set (c c' : jsval) (k : string) (v : jsval)
    (t : option jsval) :
  js_set (Some c) k v = Ok c' ->
  js_get (Some c) k = Ok t ->
  js_get (Some c') k = Ok (Some v) \/
  (t = None /\ c' = c /\ exists l, c = VArr l).
Proof.
  destruct c as [| | | | l | o]; try discriminate; cbn [js_set js_get].
  - destruct (array_index k) as [i|] eqn:Hi; intros [= <-] [= <-];
      cbn [js_get].
    + left. now rewrite ?Hi, nth_error_arr_set.
    + right. eauto.
  - intros [= <-] _. left. cbn [js_get]. rewrite obj_lookup_set.
    now rewrite String.eqb_refl.
Qed.

Lemma js_set_container (c : option jsval) (k : string) (v c' : jsval) :
  js_set c k v = Ok c' ->
  exists x, c = Some x /\ is_container x = true /\ is_container c' = true.
Proof.
  destruct c as [[| | | | l | o]|]; try discriminate; cbn [js_set].
  - destruct (array_index k); intros [= <-]; eauto.
  - intros [= <-]; eauto.
Qed.

Lemma write_target_container (rows : list row) (c : option jsval) (k : string)
    (nv p : jsval) :
  write_target rows c k nv = Ok p ->
  exists x, c = Some x /\ is_container x = true /\ is_container p = true.
Proof.
  rewrite write_target_eq.
  destruct (js_get c k) as [t|]; [|discriminate]. cbn [rbind].
  destruct (_ && _ && _); [apply js_set_container|].
  destruct (_ && _); [discriminate | apply js_set_container].
Qed.

Lemma spread_self (nv : jsval) :
  canon nv -> is_plain_object (Some nv) = true ->
  spread (Some nv) (Some nv) = nv.
Proof.
  intros Hc Hp. apply is_plain_object_inv in Hp. destruct Hp as (o & [= ->]).
  apply canon_obj in Hc. destruct Hc as [Hk _].
  rewrite spread_obj by exact Hk.
  now rewrite obj_assign_self by (apply keys_ok_NoDup, Hk).
Qed.

Lemma spread_twice (a nv : jsval) :
  canon a -> canon nv ->
  is_plain_object (Some a) = true -> is_plain_object (Some nv) = true ->
  spread (Some (spread (Some a) (Some nv))) (Some nv) = spread (Some a) (Some nv).
Proof.
  intros Ha Hn Hpa Hpn.
  apply is_plain_object_inv in Hpa, Hpn.
  destruct Hpa as (oa & [= ->]). destruct Hpn as (on & [= ->]).
  pose proof (canon_spread (Some (VObj oa)) (Some (VObj on))) as Hm.
  apply canon_obj in Ha, Hn. destruct Ha as [Hka Hva]. destruct Hn as [Hkn Hvn].
  rewrite spread_obj in * by exact Hka.
  assert (Hcm : canon (VObj (obj_assign oa on))).
  { apply Hm; intros ? [= <-]; apply canon_obj; split; assumption. }
  apply canon_obj in Hcm. destruct Hcm as [Hkm _].
  rewrite spread_obj by exact Hkm.
  now rewrite obj_assign_twice by (apply keys_ok_NoDup, Hkn).
Qed.

(** ** Walking the path after the write *)

Lemma walk_undefined (p : list seg) (cur : jsval) :
  walk None p <> Ok (Some cur).
Proof. destruct p; cbn; discriminate. Qed.

Lemma walk_primitive (p : list seg) (v cur : jsval) :
  is_container v = false ->
  walk (Some v) p = Ok (Some cur) -> is_container cur = false.
Proof.
  revert v. induction p as [|s p IH]; intros v Hv H; cbn [walk] in H.
  - now injection H as <-.
  - destruct v as [| | |str| |]; try discriminate Hv; cbn [js_get rbind] in H;
      try discriminate H; try (now apply walk_undefined in H).
    destruct (array_index (ToPropertyKey s)) as [i|];
      [destruct (String.get (N.to_nat i) str)|]; cbn [rbind] in H;
      try (now apply walk_undefined in H).
    eapply IH; [|exact H]. reflexivity.
Qed.

Lemma js_get_put_child (root : jsval) (k : string) (child x : jsval) :
  is_container root = true ->
  js_get (Some root) k = Ok (Some child) ->
  js_get (Some (put_child root k x)) k = Ok (Some x).
Proof.
  destruct root as [| | | | l | o]; try discriminate; intros _; cbn [js_get put_child].
  - destruct (array_index k) as [i|] eqn:Hi; [|discriminate].
    intros [= H].
    assert (Hlt : (N.to_nat i < List.length l)%nat)
      by (apply nth_error_Some; congruence).
    apply Nat.ltb_lt in Hlt. rewrite Hlt. cbn [js_get]. rewrite ?Hi.
    now rewrite nth_error_arr_set.
  - intros [= H]. cbn [js_get]. rewrite obj_lookup_replace_same; [reflexivity|].
    unfold has_key. now rewrite H.
Qed.

Lemma put_child_twice (root : jsval) (k : string) (x y : jsval) :
  put_child (put_child root k x) k y = put_child root k y.
Proof.
  destruct root as [| | | | l | o]; try reflexivity; cbn [put_child].
  - destruct (array_index k) as [i|] eqn:Hi; cbn [put_child]; rewrite ?Hi;
      [|reflexivity].
    destruct (N.to_nat i <? List.length l)%nat eqn:Hlt; cbn [put_child]; rewrite ?Hi.
    + apply Nat.ltb_lt in Hlt. rewrite length_arr_set by exact Hlt.
      apply Nat.ltb_lt in Hlt. rewrite Hlt. now rewrite arr_set_put_twice.
    + now rewrite Hlt.
  - f_equal. induction o as [|[k' v'] t IH]; cbn; [reflexivity|].
    destruct (String.eqb k k') eqn:E; cbn; rewrite E; [reflexivity | now rewrite IH].
Qed.

Lemma walk_plug (p : list seg) (root cur parent : jsval) :
  walk (Some root) p = Ok (Some cur) ->
  is_container cur = true ->
  walk (Some (plug root p parent)) p = Ok (Some parent).
Proof.
  revert root. induction p as [|s p IH]; intros root Hw Hc; cbn [walk plug] in *.
  - reflexivity.
  - destruct (js_get (Some root) (ToPropertyKey s)) as [[child|]|] eqn:Hg;
      cbn [rbind] in Hw; try discriminate Hw;
      [|now apply walk_undefined in Hw].
    assert (Hroot : is_container root = true).
    { destruct (is_container root) eqn:E; [reflexivity|].
      assert (Hw' : walk (Some root) (s :: p) = Ok (Some cur))
        by (cbn [walk]; rewrite Hg; exact Hw).
      apply (walk_primitive _ _ _ E) in Hw'. congruence. }
    rewrite (js_get_put_child _ _ _ _ Hroot Hg). cbn [rbind].
    now apply IH.
Qed.

Lemma plug_twice (p : list seg) (root cur parent : jsval) :
  walk (Some root) p = Ok (Some cur) ->
  is_container cur = true ->
  plug (plug root p parent) p parent = plug root p parent.
Proof.
  revert root. induction p as [|s p IH]; intros root Hw Hc; cbn [walk plug] in *.
  - reflexivity.
  - destruct (js_get (Some root) (ToPropertyKey s)) as [[child|]|] eqn:Hg;
      cbn [rbind] in Hw; try discriminate Hw;
      [|now apply walk_undefined in Hw].
    assert (Hroot : is_container root = true).
    { destruct (is_container root) eqn:E; [reflexivity|].
      assert (Hw' : walk (Some root) (s :: p) = Ok (Some cur))
        by (cbn [walk]; rewrite Hg; exact Hw).
      apply (walk_primitive _ _ _ E) in Hw'. congruence. }
    rewrite (js_get_put_child _ _ _ _ Hroot Hg).
    rewrite (IH child Hw Hc). apply put_child_twice.
Qed.

(** ** Writing the same value twice *)

Lemma rename_attempt_plain (rows : list row) (nv : jsval) :
  rename_attempt rows nv = true -> is_plain_object (Some nv) = true.
Proof.
  unfold rename_attempt. destruct rows as [|r [|]]; try discriminate.
  destruct (own_entries (Some nv)) as [|e [|]]; try discriminate.
  intros H. apply andb_true_iff in H. tauto.
Qed.

Lemma is_plain_object_spread (a b : option jsval) :
  is_plain_object (Some (spread a b)) = true.
Proof. reflexivity. Qed.

Lemma write_target_again (rows : list row) (cur : jsval) (k : string)
    (nv parent : jsval) :
  canon cur -> canon nv ->
  write_target rows (Some cur) k nv = Ok parent ->
  write_target rows (Some parent) k nv = Ok parent.
Proof.
  intros Hcur Hnv. rewrite !write_target_eq.
  destruct (js_get (Some cur) k) as [t|] eqn:Hg; [|discriminate]. cbn [rbind].
  assert (Hct : forall x, t = Some x -> canon x).
  { eapply canon_js_get; [|exact Hg]. now intros ? [= <-]. }
  destruct (isEditingObjectFields rows) eqn:Hrows; cbn [andb].
  - destruct (is_plain_object t) eqn:Ht; cbn [andb].
    + destruct (is_plain_object (Some nv)) eqn:Hp.
      * (* merge, then merge again *)
        intros Hset.
        destruct (js_get_after_set _ _ _ _ _ Hset Hg) as [Hg'|(-> & _)];
          [|discriminate Ht].
        rewrite Hg'. cbn [rbind andb].
        destruct (is_plain_object_inv _ Ht) as (ot & ->).
        rewrite is_plain_object_spread. cbn [andb].
        rewrite spread_twice; auto. now apply js_set_again in Hset.
      * destruct (rename_attempt rows nv && is_null t) eqn:Hr; [discriminate|].
        intros Hset.
        destruct (js_get_after_set _ _ _ _ _ Hset Hg) as [Hg'|(-> & _)];
          [|discriminate Ht].
        rewrite Hg'. cbn [rbind]. rewrite ?andb_false_r.
        replace (rename_attempt rows nv) with false.
        -- now apply js_set_again in Hset.
        -- destruct (rename_attempt rows nv) eqn:E; [|reflexivity].
           apply rename_attempt_plain in E. congruence.
    + destruct (rename_attempt rows nv && is_null t) eqn:Hr; [discriminate|].
      intros Hset.
      destruct (js_get_after_set _ _ _ _ _ Hset Hg) as [Hg'|(-> & -> & _)].
      * rewrite Hg'. cbn [rbind].
        destruct (is_plain_object (Some nv)) eqn:Hp; cbn [andb].
        -- rewrite spread_self by assumption. now apply js_set_again in Hset.
        -- replace (rename_attempt rows nv) with false.
           ++ now apply js_set_again in Hset.
           ++ destruct (rename_attempt rows nv) eqn:E; [|reflexivity].
              apply rename_attempt_plain in E. congruence.
      * rewrite Hg. cbn [rbind]. cbn [is_plain_object truthy andb is_null].
        rewrite andb_false_r. exact Hset.
  - destruct (rename_attempt rows nv && is_null t) eqn:Hr; [discriminate|].
    intros Hset.
    destruct (js_get_after_set _ _ _ _ _ Hset Hg) as [Hg'|(-> & -> & _)].
    + rewrite Hg'. cbn [rbind].
      replace (rename_attempt rows nv && is_null (Some nv)) with false.
      * now apply js_set_again in Hset.
      * destruct (rename_attempt rows nv) eqn:E; [|reflexivity].
        apply rename_attempt_plain, is_plain_object_inv in E.
        destruct E as (o & [= ->]). reflexivity.
    + rewrite Hg. cbn [rbind]. rewrite Hr. exact Hset.
Qed.

(** ** The stored text is valid JSON; saving twice *)

Lemma read_root_stringify (v : jsval) :
  canon v -> read_root (JSON_stringify v) = Ok v.
Proof.
  intros Hc. unfold read_root.
  destruct (String.eqb_spec (JSON_stringify v) EmptyString) as [E|_].
  - now apply JSON_stringify_nonempty in E.
  - now apply JSON_parse_stringify.
Qed.

Lemma edit_root_again (rows : list row) (root nv : jsval) :
  canon root -> canon nv ->
  edit_root rows (edit_root rows root nv) nv = edit_root rows root nv.
Proof.
  intros Hr Hn. unfold edit_root.
  destruct (isEditingObjectFields rows && is_plain_object (Some nv)) eqn:Hc;
    [|reflexivity].
  apply andb_true_iff in Hc. destruct Hc as [_ Hp].
  destruct (is_plain_object (Some root)) eqn:Hroot.
  - rewrite is_plain_object_spread. now apply spread_twice.
  - rewrite Hp. now apply spread_self.
Qed.

Lemma edit_path_again (rows : list row) (p : list seg) (root nv v : jsval) :
  canon root -> canon nv ->
  edit_path rows p root nv = Ok v ->
  edit_path rows p v nv = Ok v.
Proof.
  intros Hr Hn. unfold edit_path, traverseToParent.
  destruct (List.length p =? 0)%nat; cbn [rbind cursor lastKey]; [discriminate|].
  destruct (walk (Some root) (firstn (List.length p - 1) p)) as [c|] eqn:Hw;
    [|discriminate].
  cbn [rbind cursor lastKey parentPath].
  destruct c as [cur|]; [|discriminate].
  destruct (nth_error p (List.length p - 1)) as [last|]; [|discriminate].
  destruct (write_target rows (Some cur) (ToPropertyKey last) nv) as [p'|] eqn:Hwt;
    [|discriminate].
  cbn [rbind]. intros [= <-].
  destruct (write_target_container _ _ _ _ _ Hwt) as (x & [= <-] & Hcc & _).
  rewrite (walk_plug _ _ _ p' Hw Hcc). cbn [rbind cursor lastKey parentPath].
  assert (Hcur : canon cur).
  { eapply canon_walk; [|exact Hw|reflexivity]. now intros ? [= <-]. }
  rewrite (write_target_again _ _ _ _ _ Hcur Hn Hwt). cbn [rbind].
  now rewrite (plug_twice _ _ _ p' Hw Hcc).
Qed.

Lemma edit_value_again (nodeData : option NodeData) (doc text : string)
    (v : jsval) :
  edit_value nodeData doc text = Ok v ->
  edit_value nodeData (JSON_stringify v) text = Ok v.
Proof.
  intros H. pose proof (edit_value_canon _ _ _ _ H) as Hv.
  unfold edit_value in *. rewrite (read_root_stringify v Hv).
  destruct (read_root doc) as [root|] eqn:Hr; [|discriminate].
  destruct (new_value nodeData text) as [nv|] eqn:Hn; [|discriminate].
  cbn [rbind] in *.
  apply read_root_canon in Hr. apply new_value_canon in Hn.
  destruct (List.length (path_of nodeData) =? 0)%nat.
  - injection H as <-. now rewrite (edit_root_again _ root nv Hr Hn).
  - exact (edit_path_again _ _ root nv v Hr Hn H).
Qed.

Lemma edit_Ok (nodeData : option NodeData) (doc text s : string) :
  edit nodeData doc text = Ok s ->
  exists v, edit_value nodeData doc text = Ok v /\ s = JSON_stringify v.
Proof.
  unfold edit. destruct (edit_value nodeData doc text) as [v|]; [|discriminate].
  intros [= <-]. eauto.
Qed.

Lemma save_succeeded (nodeData : option NodeData) (w : world) :
  error (snd (save nodeData w)) = None ->
  exists v, edit_value nodeData (json w) (editedText w) = Ok v /\
            snd (save nodeData w) = committed w (JSON_stringify v).
Proof.
  rewrite save_run. cbn [snd].
  destruct (edit nodeData (json w) (editedText w)) as [s|e] eqn:He; [|discriminate].
  intros _. apply edit_Ok in He. destruct He as (v & Hv & ->). eauto.
Qed.

(** C3: after a save that succeeded on a store that held nothing or a JSON
    text, the store holds a JSON text: [JSON.parse] accepts it, and printing
    the value it reads gives the text again; the save wrote the store once,
    by [setJson]. *)
Theorem saved_document_is_valid_json (nodeData : option NodeData) (w : world) :
  (json w = EmptyString \/ exists root, JSON_parse (json w) = Ok root) ->
  error (snd (save nodeData w)) = None ->
  let w' := snd (save nodeData w) in
  exists v : jsval,
    JSON_parse (json w') = Ok v /\
    JSON_stringify v = json w' /\
    calls w' = calls w ++ [SetJson (json w');
                           DispatchEvent "json:update" (json w'); OnClose].
Proof.
  intros _ Hok. cbv zeta.
  destruct (save_succeeded _ _ Hok) as (v & Hv & ->).
  exists v. cbn [json calls committed]. repeat split.
  apply JSON_parse_stringify. eapply edit_value_canon, Hv.
Qed.

(** C9: when a save succeeded, the same save (same node, same input) on the
    store it left succeeds again and leaves the same document. *)
Theorem save_idempotent (nodeData : option NodeData) (w w2 : world) :
  error (snd (save nodeData w)) = None ->
  json w2 = json (snd (save nodeData w)) ->
  editedText w2 = editedText w ->
  json (snd (save nodeData w2)) = json (snd (save nodeData w)) /\
  error (snd (save nodeData w2)) = None.
Proof.
  intros Hok Hjson Htext.
  destruct (save_succeeded _ _ Hok) as (v & Hv & E).
  rewrite E in Hjson |- *. cbn [json committed] in Hjson |- *.
  apply edit_value_again in Hv.
  rewrite (save_committed nodeData w2 (JSON_stringify v)).
  - split; reflexivity.
  - unfold edit. now rewrite Hjson, Htext, Hv.
Qed.

(** ** The strategies on the documents of the specification *)

(** C1: on document [{"a":{"old":5}}], path [["a","old"]], the single keyed
    row [old: 5] and input [{"new":5}], the handler does not rename: the
    target [5] is not an object, the merge is refused, the rename branch
    falls back to the replacement, and the object is stored under [old].
    With the path of the node that holds the row, [["a"]], it merges and
    keeps [old]. *)
Theorem rename_example_not_renamed :
  let rows := [keyed "old" (VNum 5) "number"] in
  let w := editing "{'a':{'old':5}}" "{'new':5}" in
  let renamed := VObj [("a", VObj [("new", VNum 5)])] in
  (json (snd (save (node rows [SKey "a"; SKey "old"]) w)) =
     JSON_stringify (VObj [("a", VObj [("old", VObj [("new", VNum 5)])])]) /\
   json (snd (save (node rows [SKey "a"; SKey "old"]) w)) <> JSON_stringify renamed) /\
  (json (snd (save (node rows [SKey "a"]) w)) =
     JSON_stringify (VObj [("a", VObj [("old", VNum 5); ("new", VNum 5)])]) /\
   json (snd (save (node rows [SKey "a"]) w)) <> JSON_stringify renamed).
Proof.
  cbv zeta. repeat split; try (vm_compute; reflexivity);
    intros H; vm_compute in H; discriminate H.
Qed.

(** C5: a root edit with keyed rows merges: on [{"a":1,"b":2}] the input
    [{"b":3}] gives [{"a":1,"b":3}]; in general the stored object reads,
    at every key, the value of the input where the input has the key and
    the value of the old root elsewhere. *)
Theorem root_merge_preserves_keys :
  (let rows := [keyed "a" (VNum 1) "number"; keyed "b" (VNum 2) "number"] in
   let w' := snd (save (node rows []) (editing "{'a':1,'b':2}" "{'b':3}")) in
   json w' = JSON_stringify (VObj [("a", VNum 1); ("b", VNum 3)]) /\
   error w' = None) /\
  (forall (nodeData : option NodeData) (w : world) (o n : obj),
      path_of nodeData = [] ->
      isEditingObjectFields (rows_of nodeData) = true ->
      read_root (json w) = Ok (VObj o) ->
      JSON_parse (editedText w) = Ok (VObj n) ->
      let w' := snd (save nodeData w) in
      exists merged : obj,
        json w' = JSON_stringify (VObj merged) /\
        error w' = None /\
        forall k : string,
          obj_lookup k merged =
          match obj_lookup k n with
          | Some v => Some v
          | None => obj_lookup k o
          end).
Proof.
  split; [cbv zeta; split; vm_compute; reflexivity|].
  intros nodeData w o n Hpath Hrows Hroot Hnew. cbv zeta.
  pose proof (read_root_canon _ _ Hroot) as Hco.
  pose proof (JSON_parse_canon _ _ Hnew) as Hcn.
  apply canon_obj in Hco, Hcn. destruct Hco as [Hko _], Hcn as [Hkn _].
  exists (obj_assign o n).
  rewrite (save_committed nodeData w (JSON_stringify (VObj (obj_assign o n)))).
  - repeat split. intros k. apply obj_lookup_assign, keys_ok_NoDup, Hkn.
  - unfold edit, edit_value, new_value. rewrite Hroot, Hnew, Hpath.
    cbn [rbind List.length Nat.eqb]. unfold edit_root. rewrite Hrows.
    rewrite !is_plain_object_obj. cbn [andb].
    now rewrite spread_obj.
Qed.

(** C6: when the input is not JSON, a node with one unkeyed row takes the
    text as a string ([{"a":"hello"}] with input [not json] becomes
    [{"a":"not json"}]; in general the save is the one of the string),
    and any other node is rejected with the invalid-input error, the store
    and the calls being left as they were. *)
Theorem unparsable_input :
  (let w' := snd (save (node [unkeyed (VStr "hello") "string"] [SKey "a"])
                    (editing "{'a':'hello'}" "not json")) in
   json w' = JSON_stringify (VObj [("a", VStr "not json")]) /\ error w' = None) /\
  (forall (nodeData : option NodeData) (w : world) (e : exn) (root : jsval),
      JSON_parse (editedText w) = Throw e ->
      read_root (json w) = Ok root ->
      let w' := snd (save nodeData w) in
      (forall r : row,
          rows_of nodeData = [r] -> key_truthy r = false ->
          w' = match (if (List.length (path_of nodeData) =? 0)%nat
                      then Ok (edit_root [r] root (VStr (editedText w)))
                      else edit_path [r] (path_of nodeData) root
                             (VStr (editedText w)))
               with
               | Ok v => committed w (JSON_stringify v)
               | Throw e' => rejected w e'
               end) /\
      (~ (exists r, rows_of nodeData = [r] /\ key_truthy r = false) ->
       json w' = json w /\ calls w' = calls w /\
       error w' = Some (Error invalid_json_message))).
Proof.
  split; [cbv zeta; split; vm_compute; reflexivity|].
  intros nodeData w e root Hparse Hroot. cbv zeta. split.
  - intros r Hrows Hkey. rewrite save_run. cbn [snd].
    unfold edit, edit_value, new_value.
    rewrite Hroot, Hparse, Hrows, Hkey. cbn [rbind negb].
    destruct (List.length (path_of nodeData) =? 0)%nat; cbn [rbind];
      [reflexivity|].
    destruct (edit_path [r] (path_of nodeData) root (VStr (editedText w)));
      reflexivity.
  - intros Hnot.
    rewrite (save_rejected nodeData w (Error invalid_json_message));
      [repeat split|].
    unfold edit, edit_value, new_value. rewrite Hroot, Hparse. cbn [rbind].
    destruct (rows_of nodeData) as [|r [|r' rows]]; try reflexivity.
    destruct (key_truthy r) eqn:Hk; [reflexivity|].
    exfalso. apply Hnot. eauto.
Qed.

(** ** Paths that do not resolve *)




Lemma last_segment (p : list seg) :
  p <> [] -> exists last, nth_error p (List.length p - 1) = Some last.
Proof.
  intros Hp. destruct (nth_error p (List.length p - 1)) eqn:E; [eauto|].
  apply nth_error_None in E. destruct p; [congruence | cbn in E; lia].
Qed.

Lemma length_nonempty (p : list seg) :
  p <> [] -> (List.length p =? 0)%nat = false.
Proof. destruct p; [congruence | reflexivity]. Qed.



(** ** A final key that is absent *)


Lemma path_split (p : list seg) (last : seg) :
  nth_error p (List.length p - 1) = Some last ->
  p = firstn (List.length p - 1) p ++ [last].
Proof.
  intros H. rewrite <- (firstn_skipn (List.length p - 1) p) at 1. f_equal.
  assert (Hlen : (List.length (skipn (List.length p - 1) p) = 1)%nat).
  { rewrite length_skipn.
    assert (List.length p - 1 < List.length p)%nat
      by (apply nth_error_Some; congruence). lia. }
  destruct (skipn (List.length p - 1) p) as [|x [|y t]] eqn:E;
    try discriminate Hlen.
  rewrite <- (Nat.add_0_r (List.length p - 1)) in H.
  rewrite <- nth_error_skipn in H. rewrite E in H. now injection H as ->.
Qed.



(** ** The listener of the editor page *)

(** C7: a listener whose state already holds the incoming text keeps its
    state and schedules no render, and one whose Monaco buffer already
    holds it calls no [setValue]; a non-empty text that differs from the
    state, or from the buffer, replaces it. *)
Theorem listener_updates_only_on_change (detail : string) (e : editor) :
  (editorValue e = detail ->
   editorValue (handler detail e) = editorValue e /\
   updates (handler detail e) = updates e) /\
  (forall m, monacoRef e = Some m -> buffer m = detail ->
             monacoRef (handler detail e) = Some m) /\
  (detail <> EmptyString -> editorValue e <> detail ->
   editorValue (handler detail e) = detail /\
   updates (handler detail e) = S (updates e)) /\
  (detail <> EmptyString ->
   forall m, monacoRef e = Some m -> buffer m <> detail ->
             monacoRef (handler detail e) = Some (setValue detail m)).
Proof.
  unfold handler, setEditorValue.
  destruct e as [ev up mr]. cbn [editorValue updates monacoRef].
  repeat split; intros; subst;
    repeat (match goal with
            | |- context [String.eqb ?a ?b] =>
                destruct (String.eqb_spec a b); subst;
                cbn [negb editorValue updates monacoRef buffer] in *
            | |- context [match ?x with Some _ => _ | None => _ end] =>
                destruct x;
                cbn [negb editorValue updates monacoRef buffer] in *
            | H : context [String.eqb ?a ?b] |- _ =>
                destruct (String.eqb_spec a b); subst
            end);
    try reflexivity; try congruence.
Qed.

(** ** The theorems on the documents of the specification *)

(** The replacement of [a] by [42] in [{"a":{"x":1}}]: the calls it adds. *)
Lemma store_update_before_broadcast_witness :
  error (snd (save replace_node replace_world)) = None /\
  exists s : string,
    calls (snd (save replace_node replace_world)) =
      calls replace_world ++ [SetJson s; DispatchEvent "json:update" s; OnClose] /\
    json (snd (save replace_node replace_world)) = s.
Proof.
  split; [vm_compute; reflexivity|].
  apply (store_update_before_broadcast replace_node replace_world).
  vm_compute; reflexivity.
Defined.

(** The same replacement: the text it stores reads back. *)
Lemma saved_document_is_valid_json_witness :
  JSON_parse (json replace_world) = Ok (VObj [("a", VObj [("x", VNum 1)])]) /\
  error (snd (save replace_node replace_world)) = None /\
  exists v : jsval,
    JSON_parse (json (snd (save replace_node replace_world))) = Ok v /\
    JSON_stringify v = json (snd (save replace_node replace_world)) /\
    calls (snd (save replace_node replace_world)) =
      calls replace_world ++
      [SetJson (json (snd (save replace_node replace_world)));
       DispatchEvent "json:update" (json (snd (save replace_node replace_world)));
       OnClose].
Proof.
  split; [vm_compute; reflexivity|]. split; [vm_compute; reflexivity|].
  apply (saved_document_is_valid_json replace_node replace_world).
  - right. exists (VObj [("a", VObj [("x", VNum 1)])]). vm_compute; reflexivity.
  - vm_compute; reflexivity.
Defined.

(** The root merge of [{"b":3}] into [{"a":1,"b":2}], saved twice. *)
Lemma save_idempotent_witness :
  error (snd (save merge_node merge_world)) = None /\
  json (snd (save merge_node
               (again merge_world (snd (save merge_node merge_world))))) =
  json (snd (save merge_node merge_world)) /\
  error (snd (save merge_node
                (again merge_world (snd (save merge_node merge_world))))) = None.
Proof.
  split; [vm_compute; reflexivity|].
  apply (save_idempotent merge_node merge_world
           (again merge_world (snd (save merge_node merge_world)))).
  - vm_compute; reflexivity.
  - reflexivity.
  - reflexivity.
Defined.



(** The general statement of the root merge, on the document of the example. *)
Lemma root_merge_preserves_keys_witness :
  exists merged : obj,
    json (snd (save merge_node merge_world)) = JSON_stringify (VObj merged) /\
    error (snd (save merge_node merge_world)) = None /\
    forall k : string,
      obj_lookup k merged =
      match obj_lookup k [("b", VNum 3)] with
      | Some v => Some v
      | None => obj_lookup k [("a", VNum 1); ("b", VNum 2)]
      end.
Proof.
  apply (proj2 root_merge_preserves_keys merge_node merge_world
           [("a", VNum 1); ("b", VNum 2)] [("b", VNum 3)]).
  - reflexivity.
  - vm_compute; reflexivity.
  - vm_compute; reflexivity.
  - vm_compute; reflexivity.
Defined.

(** The fallback of a scalar leaf, on the document of the example. *)
Lemma unparsable_input_witness :
  JSON_parse (editedText literal_world) = Throw SyntaxError /\
  snd (save literal_node literal_world) =
  committed literal_world (JSON_stringify (VObj [("a", VStr "not json")])).
Proof.
  split; [vm_compute; reflexivity|].
  pose proof (proj1 (proj2 unparsable_input literal_node literal_world SyntaxError
                       (VObj [("a", VStr "hello")])
                       ltac:(vm_compute; reflexivity)
                       ltac:(vm_compute; reflexivity))
                (unkeyed (VStr "hello") "string") eq_refl eq_refl) as H.
  rewrite H. vm_compute. reflexivity.
Defined.

(** A listener that holds [{}]: the same text leaves it as it is, the text
    [[]] replaces its state and its buffer. *)
Lemma listener_updates_only_on_change_witness :
  let e := {| editorValue := "{}"; updates := 0;
              monacoRef := Some {| buffer := "{}"; setValue_calls := [] |} |} in
  handler "{}" e = e /\
  updates (handler "[]" e) = 1 /\
  monacoRef (handler "[]" e) =
    Some {| buffer := "[]"; setValue_calls := ["[]"] |}.
Proof.
  cbv zeta.
  set (m := {| buffer := "{}"; setValue_calls := [] |}).
  set (e := {| editorValue := "{}"; updates := 0; monacoRef := Some m |}).
  pose proof (listener_updates_only_on_change "{}" e) as (H1 & H2 & _).
  pose proof (listener_updates_only_on_change "[]" e) as (_ & _ & H3 & H4).
  specialize (H1 eq_refl). destruct H1 as [Hv Hu].
  specialize (H2 m eq_refl eq_refl).
  split; [|split].
  - destruct (handler "{}" e) as [ev up mr].
    cbn [editorValue updates monacoRef] in Hv, Hu, H2. now subst.
  - apply H3; discriminate.
  - apply (H4 ltac:(discriminate) m eq_refl). discriminate.
Defined.

(** * Properties of the rest of the modal and of the editor page *)

(** ** The object that the modal shows *)










(** ** The document at a path *)

Lemma reads_walk (v : jsval) (p : list seg) (x : jsval) :
  reads v p x -> walk (Some v) p = Ok (Some x).
Proof.
  induction 1 as [v|o s p c x Hl _ IH|l s p i c x Hi Hn _ IH]; cbn [walk js_get].
  - reflexivity.
  - rewrite Hl. exact IH.
  - rewrite Hi, Hn. exact IH.
Qed.

Lemma reads_last (v : jsval) (pp : list seg) (last : seg) (x : jsval) :
  reads v (pp ++ [last]) x ->
  exists cur, reads v pp cur /\ is_container cur = true /\
              js_get (Some cur) (ToPropertyKey last) = Ok (Some x).
Proof.
  revert v. induction pp as [|s pp IH]; intros v H; cbn [app] in H.
  - inversion H as [|o s0 p0 c x0 Hl Hr|l s0 p0 i c x0 Hi Hn Hr]; subst;
      inversion Hr; subst; eexists; (split; [constructor|]); split;
      try reflexivity; cbn [js_get]; rewrite ?Hl, ?Hi, ?Hn; reflexivity.
  - inversion H as [|o s0 p0 c x0 Hl Hr|l s0 p0 i c x0 Hi Hn Hr]; subst;
      destruct (IH _ Hr) as (cur & Hc & Hk & Hg); exists cur;
      (split; [econstructor; eassumption | auto]).
Qed.


Lemma arr_set_same (i : nat) (v : jsval) (l : list jsval) :
  nth_error l i = Some v -> arr_set i v l = l.
Proof.
  revert l. induction i as [|i IH]; intros [|x t]; cbn; try discriminate.
  - now intros [= ->].
  - intros H. now rewrite IH.
Qed.


Lemma plug_same (root : jsval) (p : list seg) (cur : jsval) :
  reads root p cur -> plug root p cur = root.
Proof.
  induction 1 as [v|o s p c x Hl _ IH|l s p i c x Hi Hn _ IH];
    cbn [plug js_get].
  - reflexivity.
  - rewrite Hl, IH. cbn [put_child]. now rewrite obj_replace_same.
  - rewrite Hi, Hn, IH. cbn [put_child]. rewrite Hi.
    assert (Hlt : (N.to_nat i < List.length l)%nat)
      by (apply nth_error_Some; congruence).
    apply Nat.ltb_lt in Hlt. rewrite Hlt. now rewrite arr_set_same.
Qed.

Lemma onEdit_run (nodeData : option NodeData) (w : world) :
  snd (onEdit nodeData w) =
  {| json := json w; calls := calls w; isEditing := true;
     editedText := normalizeNodeData (rows_of nodeData); error := error w |}.
Proof. reflexivity. Qed.

(** The write of a save on a path that leads to [x], as a function of the
    new value of the target. *)
Lemma edit_path_reads (rows : list row) (p : list seg) (root x nv : jsval) :
  p <> [] -> reads root p x ->
  exists (cur : jsval) (last : seg),
    p = firstn (List.length p - 1) p ++ [last] /\
    reads root (firstn (List.length p - 1) p) cur /\
    is_container cur = true /\
    js_get (Some cur) (ToPropertyKey last) = Ok (Some x) /\
    edit_path rows p root nv =
    (parent' <- write_target rows (Some cur) (ToPropertyKey last) nv ;;
     Ok (plug root (firstn (List.length p - 1) p) parent'))%result.
Proof.
  intros Hp Hr. destruct (last_segment p Hp) as (last & Hlast).
  pose proof (path_split p last Hlast) as Hsplit.
  rewrite Hsplit in Hr. apply reads_last in Hr.
  destruct Hr as (cur & Hcur & Hc & Hg). exists cur, last.
  repeat split; try assumption.
  unfold edit_path, traverseToParent. rewrite (length_nonempty p Hp).
  rewrite (reads_walk _ _ _ Hcur). cbn [rbind cursor lastKey parentPath].
  now rewrite Hlast.
Qed.

(** ** Edit, then Save *)




Lemma reads_plug (root : jsval) (p : list seg) (cur parent : jsval) :
  reads root p cur -> reads (plug root p parent) p parent.
Proof.
  induction 1 as [v|o s p c x Hl _ IH|l s p i c x Hi Hn _ IH];
    cbn [plug js_get].
  - constructor.
  - rewrite Hl. cbn [put_child]. econstructor; [|exact IH].
    apply obj_lookup_replace_same. unfold has_key. now rewrite Hl.
  - rewrite Hi, Hn. cbn [put_child]. rewrite Hi.
    assert (Hlt : (N.to_nat i < List.length l)%nat)
      by (apply nth_error_Some; congruence).
    apply Nat.ltb_lt in Hlt. rewrite Hlt.
    econstructor; [exact Hi | apply nth_error_arr_set | exact IH].
Qed.

Lemma reads_snoc (v : jsval) (pp : list seg) (last : seg) (cur x : jsval) :
  reads v pp cur -> reads cur [last] x -> reads v (pp ++ [last]) x.
Proof.
  induction 1; intros Hx; cbn [app]; [exact Hx | econstructor; eauto ..].
Qed.

Lemma reads_after_set (cur : jsval) (last : seg) (x nv : jsval) :
  is_container cur = true ->
  js_get (Some cur) (ToPropertyKey last) = Ok (Some x) ->
  exists parent',
    js_set (Some cur) (ToPropertyKey last) nv = Ok parent' /\
    reads parent' [last] nv /\
    (nv = x -> parent' = cur).
Proof.
  intros Hc Hg. destruct cur as [| | | |l|o]; try discriminate Hc;
    cbn [js_get js_set] in *.
  - destruct (array_index (ToPropertyKey last)) as [i|] eqn:Hi; [|discriminate Hg].
    injection Hg as Hg. eexists. split; [reflexivity|]. split.
    + econstructor; [exact Hi | apply nth_error_arr_set | constructor].
    + intros ->. now rewrite arr_set_same.
  - injection Hg as Hg. eexists. split; [reflexivity|]. split.
    + econstructor; [|constructor].
      now rewrite obj_lookup_set, String.eqb_refl.
    + intros ->. now rewrite obj_set_same.
Qed.

(** The replacement: when neither the merge nor the rename on [null]
    applies, the value at the path becomes the new value. *)
Lemma replace_at_path (rows : list row) (p : list seg) (root x nv : jsval) :
  reads root p x ->
  isEditingObjectFields rows && is_plain_object (Some x)
    && is_plain_object (Some nv) = false ->
  rename_attempt rows nv && is_null (Some x) = false ->
  exists root',
    (if (List.length p =? 0)%nat then Ok (edit_root rows root nv)
     else edit_path rows p root nv) = Ok root' /\
    reads root' p nv /\ (nv = x -> root' = root).
Proof.
  intros Hr Hmerge Hren. destruct p as [|s p].
  - inversion Hr; subst. cbn [List.length Nat.eqb]. unfold edit_root.
    exists nv. split; [|split; [constructor | auto]].
    destruct (isEditingObjectFields rows); cbn [andb] in *; [|reflexivity].
    destruct (is_plain_object (Some nv)); [|reflexivity].
    rewrite andb_true_r in Hmerge. now rewrite Hmerge.
  - rewrite length_nonempty by discriminate.
    destruct (edit_path_reads rows (s :: p) root x nv ltac:(discriminate) Hr)
      as (cur & last & Hsplit & Hcur & Hc & Hg & ->).
    destruct (reads_after_set cur last x nv Hc Hg) as (parent' & Hset & Hrd & Hsame).
    rewrite write_target_eq, Hg. cbn [rbind]. rewrite Hmerge, Hren, Hset.
    cbn [rbind]. eexists. split; [reflexivity|]. split.
    + remember (firstn (List.length (s :: p) - 1) (s :: p)) as pp eqn:Epp.
      rewrite Hsplit. eapply reads_snoc; [|exact Hrd].
      now apply (reads_plug _ _ cur).
    + intros E. rewrite (Hsame E). now apply plug_same.
Qed.

(** A save whose input is neither merged nor taken for a rename puts the
    input at the path of the node. *)
Lemma save_replaces (nodeData : option NodeData) (w : world)
    (root x nv : jsval) :
  read_root (json w) = Ok root ->
  new_value nodeData (editedText w) = Ok nv ->
  reads root (path_of nodeData) x ->
  isEditingObjectFields (rows_of nodeData) && is_plain_object (Some x)
    && is_plain_object (Some nv) = false ->
  rename_attempt (rows_of nodeData) nv && is_null (Some x) = false ->
  exists root',
    snd (save nodeData w) = committed w (JSON_stringify root') /\
    JSON_parse (JSON_stringify root') = Ok root' /\
    reads root' (path_of nodeData) nv /\
    (nv = x -> root' = root).
Proof.
  intros Hroot Hnv Hr Hmerge Hren.
  destruct (replace_at_path _ _ _ _ _ Hr Hmerge Hren) as (root' & He & Hr' & Hsame).
  assert (Hv : edit_value nodeData (json w) (editedText w) = Ok root').
  { unfold edit_value. rewrite Hroot, Hnv. cbn [rbind]. exact He. }
  exists root'. repeat split; try assumption.
  - apply save_committed. unfold edit. now rewrite Hv.
  - apply JSON_parse_stringify. now apply (edit_value_canon _ _ _ _ Hv).
Qed.




(** X5: Save right after Edit on a node without rows puts the empty object
    in the place of the node, whatever was there. *)
Theorem edit_then_save_no_rows (nodeData : option NodeData) (w : world)
    (root x : jsval) :
  read_root (json w) = Ok root ->
  rows_of nodeData = [] ->
  reads root (path_of nodeData) x ->
  let w2 := snd (save nodeData (snd (onEdit nodeData w))) in
  exists root',
    JSON_parse (json w2) = Ok root' /\
    reads root' (path_of nodeData) (VObj []) /\
    error w2 = None.
Proof.
  intros Hroot Hrows Hr. cbv zeta.
  destruct (save_replaces nodeData (snd (onEdit nodeData w)) root x (VObj []))
    as (root' & Hsave & Hparse & Hr' & _).
  - exact Hroot.
  - rewrite onEdit_run. cbn [editedText]. rewrite Hrows. reflexivity.
  - exact Hr.
  - now rewrite Hrows.
  - now rewrite Hrows.
  - exists root'. rewrite Hsave. cbn [json error committed]. auto.
Qed.


(** ** What a save leaves alone *)










(** ** The merge below the root, the empty store, the rename on [null] *)



(** X10: a node with one keyed row, below the root, whose value in the
    document is [null] rejects every object with one key: the handler takes
    [null] for the object to rename in, the write into it throws, nothing
    is stored. *)
Theorem rename_on_null_rejected (nodeData : option NodeData) (w : world)
    (root : jsval) (r : row) (k : string) (v : jsval) :
  read_root (json w) = Ok root ->
  path_of nodeData <> [] ->
  reads root (path_of nodeData) VNull ->
  rows_of nodeData = [r] -> key_truthy r = true ->
  JSON_parse (editedText w) = Ok (VObj [(k, v)]) ->
  snd (save nodeData w) = rejected w TypeError.
Proof.
  intros Hroot Hp Hr Hrows Hk Hnew. apply save_rejected.
  unfold edit, edit_value, new_value. rewrite Hroot, Hnew. cbn [rbind].
  rewrite (length_nonempty _ Hp).
  destruct (edit_path_reads (rows_of nodeData) _ root VNull (VObj [(k, v)]) Hp Hr)
    as (cur & last & _ & _ & _ & Hg & ->).
  rewrite write_target_eq, Hg. cbn [rbind].
  replace (is_plain_object (Some VNull)) with false by reflexivity.
  rewrite andb_false_r. cbn [andb].
  unfold rename_attempt. rewrite Hrows, Hk. reflexivity.
Qed.

(** ** The modal over time *)

Lemma step_effect (w w' : world) :
  step w w' ->
  (json w' = json w /\ stored (calls w') = stored (calls w) /\
   broadcast (calls w') = broadcast (calls w) /\
   (forall e, deliver (calls w') e = deliver (calls w) e) /\
   (isEditing w' = false -> (isEditing w = false /\ editedText w' = editedText w /\
                             error w' = error w) \/
                            (editedText w' = EmptyString /\ error w' = None))) \/
  (exists v, canon v /\ w' = committed w (JSON_stringify v)).
Proof.
  intros [nd w1 He|text w1 He|w1 He|nd w1 He|w1|w1].
  - left. rewrite onEdit_run. cbn. repeat split; discriminate.
  - left. cbn. repeat split. intros E. congruence.
  - left. cbn. repeat split. now right.
  - rewrite save_run. cbn [snd].
    destruct (edit nd (json w1) (editedText w1)) as [s|e] eqn:Hs.
    + right. apply edit_Ok in Hs. destruct Hs as (v & Hv & ->).
      exists v. split; [apply (edit_value_canon _ _ _ _ Hv) | reflexivity].
    + left. cbn. repeat split. intros E. congruence.
  - left. cbn. unfold stored, broadcast, deliver.
    rewrite !flat_map_app, ?app_nil_r. cbn. rewrite ?app_nil_r.
    repeat split; [intros e; now rewrite fold_left_app|]. intros E. now left.
  - left. cbn. repeat split. now right.
Qed.

Lemma committed_calls (w : world) (s : string) :
  stored (calls (committed w s)) = stored (calls w) ++ [s] /\
  broadcast (calls (committed w s)) = broadcast (calls w) ++ [s].
Proof.
  cbn [calls committed]. unfold stored, broadcast. rewrite !flat_map_app.
  split; reflexivity.
Qed.

(** X11: while the modal is not editing it holds no text and no error:
    Cancel, a save that succeeded and the effect clear both, and nothing
    else leaves the editing mode. *)
Theorem closed_modal_is_clean (w0 w : world) :
  mounted w0 -> reachable w0 w ->
  isEditing w = false -> editedText w = EmptyString /\ error w = None.
Proof.
  intros (_ & Ht & He) Hreach.
  induction Hreach as [|w w' _ IH Hstep]; [auto|].
  intros Hed. destruct (step_effect _ _ Hstep) as [(_ & _ & _ & _ & H)|(v & _ & ->)].
  - destruct (H Hed) as [(Hw & -> & ->)|[-> ->]]; auto.
  - split; reflexivity.
Qed.

(** X12: the store follows the saves: the texts written to the store are
    the texts broadcast, in the same order, every one of them is JSON, and
    the store holds the last of them. *)
Theorem store_follows_saves (w0 w : world) :
  calls w0 = [] -> reachable w0 w ->
  stored (calls w) = broadcast (calls w) /\
  json w = last (stored (calls w)) (json w0) /\
  Forall (fun s => exists v, JSON_parse s = Ok v) (stored (calls w)).
Proof.
  intros Hc Hreach.
  induction Hreach as [|w w' _ IH Hstep]; [rewrite Hc; cbn; auto|].
  destruct IH as (Heq & Hlast & Hall).
  destruct (step_effect _ _ Hstep) as [(-> & -> & -> & _ & _)|(v & Hv & ->)];
    [auto|].
  destruct (committed_calls w (JSON_stringify v)) as [-> ->].
  rewrite Heq, last_last. repeat split.
  rewrite <- Heq. apply Forall_app. split; [exact Hall|].
  constructor; [|constructor]. exists v. now apply JSON_parse_stringify.
Qed.

Lemma deliver_app (cs cs' : list call) (e : editor) :
  deliver (cs ++ cs') e = deliver cs' (deliver cs e).
Proof. apply fold_left_app. Qed.

Lemma handler_holds (detail : string) (e : editor) :
  detail <> EmptyString ->
  editorValue (handler detail e) = detail /\
  forall m, monacoRef (handler detail e) = Some m -> buffer m = detail.
Proof.
  intros Hne. unfold handler, setEditorValue.
  destruct (String.eqb_spec detail EmptyString) as [|_]; [contradiction|].
  destruct e as [ev up [m|]]; cbn [editorValue updates monacoRef];
    destruct (String.eqb_spec ev detail) as [->|Hev];
    rewrite ?String.eqb_refl; cbn [editorValue updates monacoRef].
  - destruct (String.eqb_spec (buffer m) detail) as [Hb|Hb];
      cbn [negb editorValue monacoRef]; split; try reflexivity;
      intros m' [= <-]; auto.
  - destruct (String.eqb_spec detail ev) as [E|_]; [congruence|].
    cbn [editorValue updates monacoRef].
    destruct (String.eqb_spec (buffer m) detail) as [Hb|Hb];
      cbn [negb editorValue monacoRef]; split; try reflexivity;
      intros m' [= <-]; auto.
  - split; [reflexivity | discriminate].
  - destruct (String.eqb_spec detail ev) as [E|_]; [congruence|].
    cbn [editorValue updates monacoRef]. split; [reflexivity | discriminate].
Qed.

Lemma deliver_committed (w : world) (s : string) (e : editor) :
  deliver (calls (committed w s)) e = handler s (deliver (calls w) e).
Proof. cbn [calls committed]. now rewrite deliver_app. Qed.

(** X13: the editor page stays in sync with the store: mounted on the
    store of the modal, and given the events that the modal dispatched, its
    state holds the text of the store; so does its Monaco buffer, once the
    store held a text at mount or a save went through. *)
Theorem editor_in_sync (w0 w : world) (e0 : editor) :
  calls w0 = [] -> editorValue e0 = EmptyString ->
  reachable w0 w ->
  let e := deliver (calls w) (mount (json w0) e0) in
  editorValue e = json w /\
  (json w0 <> EmptyString \/ stored (calls w) <> [] ->
   forall m, monacoRef e = Some m -> buffer m = json w).
Proof.
  intros Hc He0 Hreach. cbv zeta.
  induction Hreach as [|w w' _ IH Hstep].
  - rewrite Hc. cbn [deliver fold_left stored flat_map]. unfold mount, setEditorValue.
    destruct (String.eqb_spec (json w0) EmptyString) as [E|E]; cbn [negb].
    + split; [congruence|]. intros [H|H]; contradiction.
    + rewrite He0.
      destruct (String.eqb_spec (json w0) EmptyString) as [|_]; [contradiction|].
      cbn [editorValue monacoRef updates].
      destruct (monacoRef e0) as [m0|]; cbn [editorValue monacoRef];
        split; try reflexivity; intros _ m [= <-]; reflexivity.
  - destruct IH as [IHv IHb].
    destruct (step_effect _ _ Hstep) as [(Hj & Hs & _ & Hd & _)|(v & Hv & ->)].
    + rewrite Hj, Hs, Hd. auto.
    + rewrite deliver_committed. cbn [json committed].
      destruct (handler_holds (JSON_stringify v)
                  (deliver (calls w) (mount (json w0) e0))
                  (JSON_stringify_nonempty v)) as [-> Hb].
      split; [reflexivity|]. intros _. exact Hb.
Qed.

(** X14: an event delivered twice is an event delivered once. *)
Theorem handler_idempotent (detail : string) (e : editor) :
  handler detail (handler detail e) = handler detail e.
Proof.
  unfold handler at 1.
  destruct (String.eqb_spec detail EmptyString) as [E|E]; [reflexivity|].
  destruct (handler_holds detail e E) as [Hv Hb].
  unfold setEditorValue. rewrite Hv, !String.eqb_refl.
  destruct (monacoRef (handler detail e)) as [m|] eqn:Hm; [|reflexivity].
  rewrite (Hb m eq_refl), String.eqb_refl. reflexivity.
Qed.

Lemma last_default (l : list string) (s d d' : string) :
  last (s :: l) d = last (s :: l) d'.
Proof.
  revert s. induction l as [|x l IH]; intros s; [reflexivity|].
  change (last (x :: l) d = last (x :: l) d'). apply IH.
Qed.

Lemma typed_run (texts : list string) (w : world) :
  typed texts w =
  {| json := json w; calls := calls w; isEditing := isEditing w;
     editedText := last texts (editedText w); error := error w |}.
Proof.
  revert w. induction texts as [|t texts IH]; intros w; [now destruct w|].
  unfold typed in *. cbn [fold_left]. rewrite IH. cbn.
  destruct texts as [|s texts]; [reflexivity|].
  now rewrite (last_default texts s t (editedText w)).
Qed.

(** X15: Edit, any typing, then Cancel leave a clean modal as it was: the
    store, the calls and the state are those before Edit. *)
Theorem edit_cancel_round_trip (nodeData : option NodeData)
    (texts : list string) (w : world) :
  mounted w ->
  snd (onCancel (typed texts (snd (onEdit nodeData w)))) = w.
Proof.
  intros (He & Ht & Herr). rewrite typed_run. destruct w as [j c ie et er].
  cbn in *. now subst.
Qed.

(** X16: a save that was rejected leaves no trace on the next one: the
    next save, on whatever node and after whatever typing, ends as it
    would have ended without the rejected one. *)
Theorem retry_after_rejection (nodeData nodeData' : option NodeData)
    (text : string) (w : world) :
  error (snd (save nodeData w)) <> None ->
  snd (save nodeData' (snd (onChange text (snd (save nodeData w))))) =
  snd (save nodeData' (snd (onChange text w))).
Proof.
  intros Herr. rewrite !save_run in *. cbn [snd] in *.
  destruct (edit nodeData (json w) (editedText w)) as [s|e];
    [now cbn in Herr|].
  cbn. destruct (edit nodeData' (json w) text); reflexivity.
Qed.

(** ** The path shown in the modal *)

Lemma string_app_assoc (a b c : string) :
  ((a ++ b) ++ c = a ++ (b ++ c))%string.
Proof. induction a as [|x a IH]; cbn; [reflexivity | now rewrite IH]. Qed.

Lemma jsonPathToString_text (p : list seg) :
  jsonPathToString (Some p) = String "$" (path_text p).
Proof.
  destruct p as [|s p]; [reflexivity|].
  unfold jsonPathToString. cbn [append]. f_equal.
  cbn [path_text append]. f_equal.
  revert s. induction p as [|s' p IH]; intros s.
  - cbn [map join_segments path_text]. reflexivity.
  - change (map segment_text (s :: s' :: p))
      with (segment_text s :: map segment_text (s' :: p)).
    change (join_segments (segment_text s :: map segment_text (s' :: p)))
      with (segment_text s ++ "][" ++ join_segments (map segment_text (s' :: p)))%string.
    rewrite !string_app_assoc. f_equal. cbn [append]. f_equal.
    cbn [path_text append]. f_equal. apply IH.
Qed.

Lemma string_split_unique (c : ascii) (a b x x' : string) :
  ~ In c (list_ascii_of_string a) -> ~ In c (list_ascii_of_string b) ->
  (a ++ String c x = b ++ String c x')%string -> a = b /\ x = x'.
Proof.
  revert b. induction a as [|y a IH]; intros [|z b] Ha Hb H; cbn in *.
  - injection H as ->. auto.
  - injection H as -> _. tauto.
  - injection H as -> _. tauto.
  - injection H as -> H. destruct (IH b) as [-> ->]; tauto.
Qed.

Lemma digits_of_N_inj (n m : N) : digits_of_N n = digits_of_N m -> n = m.
Proof.
  intros H. rewrite <- (N_of_digits_of_N n), <- (N_of_digits_of_N m).
  now rewrite H.
Qed.

Lemma digits_of_N_digits (n : N) :
  Forall (fun c => is_digit c = true) (list_ascii_of_string (digits_of_N n)).
Proof. apply digits_all. Qed.

Lemma digits_exclude (n : N) (c : ascii) :
  is_digit c = false -> ~ In c (list_ascii_of_string (digits_of_N n)).
Proof.
  intros Hc Hin. pose proof (digits_of_N_digits n) as Hall.
  rewrite Forall_forall in Hall. specialize (Hall c Hin). congruence.
Qed.

Lemma segment_text_inj (s s' : seg) (x x' : string) :
  (forall k, s = SKey k -> quote_free k) ->
  (forall k, s' = SKey k -> quote_free k) ->
  (segment_text s ++ String "]" x = segment_text s' ++ String "]" x')%string ->
  s = s' /\ x = x'.
Proof.
  intros Hs Hs' H. destruct s as [k|n], s' as [k'|n']; cbn [segment_text] in H.
  - cbn [append] in H. injection H as H. rewrite !string_app_assoc in H.
    cbn [append] in H.
    apply string_split_unique in H; [|now apply Hs|now apply Hs'].
    destruct H as [-> H]. injection H as ->. auto.
  - exfalso. destruct (digits_nonempty n') as (c & tl & Hd & Hc).
    unfold lit in Hd. destruct (digits_of_N n') as [|c' d']; [discriminate Hd|].
    cbn in Hd. injection Hd as -> _. cbn [append] in H. injection H as <- _.
    discriminate Hc.
  - exfalso. destruct (digits_nonempty n) as (c & tl & Hd & Hc).
    unfold lit in Hd. destruct (digits_of_N n) as [|c' d']; [discriminate Hd|].
    cbn in Hd. injection Hd as -> _. cbn [append] in H. injection H as -> _.
    discriminate Hc.
  - apply string_split_unique in H;
      [|now apply digits_exclude|now apply digits_exclude].
    destruct H as [H ->]. apply digits_of_N_inj in H. now subst.
Qed.

Lemma path_text_inj (p q : list seg) :
  keys_quote_free p -> keys_quote_free q ->
  path_text p = path_text q -> p = q.
Proof.
  revert q. induction p as [|s p IH]; intros [|s' q] Hp Hq H;
    cbn [path_text append] in H; try discriminate H; [reflexivity|].
  injection H as H. cbn [append] in H.
  apply segment_text_inj in H.
  - destruct H as [-> H]. f_equal. apply IH; [| |exact H].
    + intros k Hk. apply Hp. now right.
    + intros k Hk. apply Hq. now right.
  - intros k ->. apply Hp. now left.
  - intros k ->. apply Hq. now left.
Qed.

(** X17: the path shown names the node: two paths whose keys hold no
    double quote and that are shown alike are the same path. *)
Theorem jsonPathToString_injective (p q : list seg) :
  keys_quote_free p -> keys_quote_free q ->
  jsonPathToString (Some p) = jsonPathToString (Some q) -> p = q.
Proof.
  intros Hp Hq H. rewrite !jsonPathToString_text in H. injection H as H.
  now apply path_text_inj.
Qed.

(** A key that holds double quotes can be shown as a longer path. *)
Remark jsonPathToString_quote_clash :
  jsonPathToString (Some [SKey (dq "a']['b")]) =
  jsonPathToString (Some [SKey "a"; SKey "b"]).
Proof. vm_compute. reflexivity. Qed.

(** ** The theorems on a document *)

Lemma person_world_root : read_root (json person_world) = Ok person_root.
Proof. vm_compute. reflexivity. Qed.




Lemma reads_zip : reads person_root [SKey "address"; SKey "zip"] VNull.
Proof.
  eapply reads_key; [reflexivity|].
  eapply reads_key; [reflexivity | constructor].
Qed.

Lemma reachable_zip_world : reachable person_world zip_world.
Proof.
  eapply reach_step; [eapply reach_step; [apply reach_start|]|].
  - apply (step_edit address_node person_world). reflexivity.
  - apply (step_change (dq "{'zip':'0150'}")). reflexivity.
Qed.

Lemma reachable_saved_world : reachable person_world saved_world.
Proof.
  eapply reach_step; [apply reachable_zip_world|].
  apply (step_save address_node zip_world). reflexivity.
Qed.

Lemma reachable_cancelled_world : reachable person_world cancelled_world.
Proof.
  unfold cancelled_world.
  eapply reach_step; [eapply reach_step; [eapply reach_step;
    [eapply reach_step; [apply reach_start|]|]|]|].
  - apply (step_edit address_node person_world). reflexivity.
  - apply (step_change "{oops"). reflexivity.
  - apply (step_save address_node). reflexivity.
  - apply step_cancel. vm_compute. reflexivity.
Qed.





(** Edit and Save on a node without rows at [tags]. *)
Lemma edit_then_save_no_rows_witness :
  exists root',
    JSON_parse (json (snd (save tags_node (snd (onEdit tags_node person_world))))) =
      Ok root' /\
    reads root' [SKey "tags"] (VObj []) /\
    error (snd (save tags_node (snd (onEdit tags_node person_world)))) = None.
Proof.
  apply (edit_then_save_no_rows tags_node person_world person_root
           (VArr [VStr "a"; VStr "42"])).
  - vm_compute. reflexivity.
  - reflexivity.
  - eapply reads_key; [reflexivity | constructor].
Defined.





(** An object with one key put in at [zip], which holds [null]. *)
Lemma rename_on_null_rejected_witness :
  snd (save zip_node (editing person_doc "{'code':1}")) =
  rejected (editing person_doc "{'code':1}") TypeError.
Proof.
  apply (rename_on_null_rejected zip_node (editing person_doc "{'code':1}")
           person_root (keyed "zip" VNull "null") "code" (VNum 1)).
  - vm_compute. reflexivity.
  - discriminate.
  - exact reads_zip.
  - reflexivity.
  - reflexivity.
  - vm_compute. reflexivity.
Defined.

(** After the rejected save and Cancel the modal holds nothing. *)
Lemma closed_modal_is_clean_witness :
  editedText cancelled_world = EmptyString /\ error cancelled_world = None.
Proof.
  apply (closed_modal_is_clean person_world cancelled_world).
  - repeat split.
  - exact reachable_cancelled_world.
  - vm_compute. reflexivity.
Defined.

(** After the save of a new [zip]. *)
Lemma store_follows_saves_witness :
  stored (calls saved_world) = broadcast (calls saved_world) /\
  json saved_world = last (stored (calls saved_world)) (json person_world) /\
  Forall (fun s => exists v, JSON_parse s = Ok v) (stored (calls saved_world)).
Proof.
  apply (store_follows_saves person_world saved_world).
  - reflexivity.
  - exact reachable_saved_world.
Defined.

Lemma editor_in_sync_witness :
  editorValue (deliver (calls saved_world) (mount (json person_world) page)) =
    json saved_world /\
  (json person_world <> EmptyString \/ stored (calls saved_world) <> [] ->
   forall m,
     monacoRef (deliver (calls saved_world) (mount (json person_world) page)) =
       Some m ->
     buffer m = json saved_world).
Proof.
  apply (editor_in_sync person_world saved_world page).
  - reflexivity.
  - reflexivity.
  - exact reachable_saved_world.
Defined.

Lemma edit_cancel_round_trip_witness :
  snd (onCancel (typed ["{"; "{oops"] (snd (onEdit address_node person_world)))) =
  person_world.
Proof.
  apply (edit_cancel_round_trip address_node ["{"; "{oops"] person_world).
  repeat split.
Defined.

(** The path that leads nowhere, then the new [zip]. *)
Lemma retry_after_rejection_witness :
  snd (save address_node
         (snd (onChange (dq "{'zip':'0150'}")
                 (snd (save invalid_path_node (editing person_doc "5")))))) =
  snd (save address_node
         (snd (onChange (dq "{'zip':'0150'}") (editing person_doc "5")))).
Proof.
  apply (retry_after_rejection invalid_path_node address_node
           (dq "{'zip':'0150'}") (editing person_doc "5")).
  vm_compute. discriminate.
Defined.

Lemma jsonPathToString_injective_witness :
  [SKey "tags"; SIdx 1] = [SKey "tags"; SIdx 1].
Proof.
  apply (jsonPathToString_injective [SKey "tags"; SIdx 1] [SKey "tags"; SIdx 1]).
  - intros k [[= <-]|[H|[]]]; [|discriminate H].
    vm_compute. intuition discriminate.
  - intros k [[= <-]|[H|[]]]; [|discriminate H].
    vm_compute. intuition discriminate.
  - reflexivity.
Defined.
